(** * vectorClass<T>: the hand-rolled growable array of vectorImplementation.cpp

    A shallow embedding of the class template [vectorClass] and a
    verification of its push / pop / get / size / capacity operations
    against the growable-array specification.

    Modelling conventions.
    - A C++ [int] is a [Z] in the range [INT_MIN .. INT_MAX].  Signed
      overflow is undefined behaviour in C++, so the arithmetic below does
      not wrap silently: an operation whose mathematical result leaves the
      range yields the fault [SignedOverflow].
    - [new T[n]] and [delete[]] act on an explicit heap, a finite map from
      block addresses to arrays of slots.  A slot is [None] until it is
      first assigned ([new T[n]] leaves the elements of a plain type
      indeterminate).  The allocator never runs out of memory.
    - An access outside an allocated block, or a read of a slot that was
      never assigned, is undefined behaviour and yields a fault.
    - [cout << ...] appends tokens to an output trace. *)

From Stdlib Require Import Ascii.
From stdpp Require Import base numbers option list gmap strings.

Local Open Scope Z_scope.

(** ** Outcomes of running a piece of C++ *)

Inductive fault : Set :=
  | SignedOverflow     (* an int expression left the range of int *)
  | BadArrayLength     (* new T[n] with n < 0 *)
  | OutOfBounds        (* arr[i] outside the allocated block *)
  | Uninitialised      (* read of a slot that was never assigned *)
  | InvalidPointer.    (* use of a block that is not allocated *)

Inductive outcome (A : Type) : Type :=
  | Returns (a : A)
  | Fault (f : fault).
Arguments Returns {A} a.
Arguments Fault {A} f.

#[global] Instance outcome_ret : MRet outcome := @Returns.
#[global] Instance outcome_bind : MBind outcome := λ A B k m,
  match m with
  | Returns a => k a
  | Fault f => Fault f
  end.

#[global] Instance fault_eq_dec : EqDecision fault.
Proof. solve_decision. Defined.

(** ** The type int *)

Definition INT_MAX : Z := 2147483647.
Definition INT_MIN : Z := -2147483648.

Definition in_int (z : Z) : bool := (INT_MIN <=? z) && (z <=? INT_MAX).

Definition to_int (z : Z) : outcome Z :=
  if in_int z then Returns z else Fault SignedOverflow.

Definition int_add (a b : Z) : outcome Z := to_int (a + b).
Definition int_sub (a b : Z) : outcome Z := to_int (a - b).
Definition int_mul (a b : Z) : outcome Z := to_int (a * b).

(** ** Output *)

Inductive token (T : Type) : Type :=
  | Str (s : string)   (* cout << "literal" *)
  | Int (z : Z)        (* cout << an int *)
  | Elem (x : T)       (* cout << an element *)
  | Endl.              (* cout << endl *)
Arguments Str {T} s.
Arguments Int {T} z.
Arguments Elem {T} x.
Arguments Endl {T}.

(** ** The object *)

Definition loc := positive.

(** The three data members of [vectorClass<T>]; [arr] is a pointer. *)
Record vectorClass : Set := mkVector {
  arr : loc;
  capacity : Z;
  current : Z
}.

Section VectorClass.

(** The element type of the template, and the conversion of an [int] to it
    that [return -1;] in [get] relies on. *)
Context {T : Type} (of_int : Z → T).

Local Abbreviation block := (list (option T)).
Local Abbreviation heap := (gmap loc block).
(** A configuration: the heap and the object living in it. *)
Local Abbreviation config := (heap * vectorClass)%type.

(** *** Memory operations *)

(** [new T[n]] *)
Definition new_array (n : Z) (h : heap) : outcome (loc * heap) :=
  if n <? 0 then Fault BadArrayLength
  else
    let l := fresh (dom h) in
    Returns (l, <[l := replicate (Z.to_nat n) None]> h).

(** [delete[] p] *)
Definition delete_array (p : loc) (h : heap) : outcome heap :=
  match h !! p with
  | Some _ => Returns (delete p h)
  | None => Fault InvalidPointer
  end.

(** [p[i]] as an rvalue *)
Definition load (h : heap) (p : loc) (i : Z) : outcome T :=
  match h !! p with
  | None => Fault InvalidPointer
  | Some b =>
      if i <? 0 then Fault OutOfBounds
      else match b !! Z.to_nat i with
           | None => Fault OutOfBounds
           | Some None => Fault Uninitialised
           | Some (Some x) => Returns x
           end
  end.

(** [p[i] = x] *)
Definition store (h : heap) (p : loc) (i : Z) (x : T) : outcome heap :=
  match h !! p with
  | None => Fault InvalidPointer
  | Some b =>
      if (i <? 0) || (Z.of_nat (length b) <=? i) then Fault OutOfBounds
      else Returns (<[p := <[Z.to_nat i := Some x]> b]> h)
  end.

(** *** Member functions *)

(** [vectorClass()] *)
Definition vectorClass_new (h : heap) : outcome config :=
  '(p, h') ← new_array 1 h;
  Returns (h', {| arr := p; capacity := 1; current := 0 |}).

(** [~vectorClass()] *)
Definition vectorClass_delete (c : config) : outcome heap :=
  delete_array (arr c.2) c.1.

(** The loop [for (int i = 0; i < capacity; i++) tmep[i] = arr[i];] with
    [n] iterations left and loop counter [i]. *)
Fixpoint copy_loop (n : nat) (i : Z) (src dst : loc) (h : heap) : outcome heap :=
  match n with
  | O => Returns h
  | S n' =>
      x ← load h src i;
      h' ← store h dst i x;
      copy_loop n' (i + 1) src dst h'
  end.

(** The growth step of [push], the body of [if (capacity == current)]. *)
Definition grow (c : config) : outcome config :=
  let '(h, v) := c in
  n ← int_mul 2 (capacity v);
  '(tmep, h1) ← new_array n h;
  h2 ← copy_loop (Z.to_nat (capacity v)) 0 (arr v) tmep h1;
  h3 ← delete_array (arr v) h2;
  cap ← int_mul (capacity v) 2;
  Returns (h3, {| arr := tmep; capacity := cap; current := current v |}).

(** [void push(T data)] *)
Definition push (data : T) (c : config) : outcome config :=
  '(h, v) ← (if capacity c.2 =? current c.2 then grow c else Returns c);
  h' ← store h (arr v) (current v) data;
  cur ← int_add (current v) 1;
  Returns (h', {| arr := arr v; capacity := capacity v; current := cur |}).

(** [void push(T data, int index)].  The condition [index = capacity] is an
    assignment: it overwrites the parameter and is true when the assigned
    value is not zero. *)
Definition push_index (data : T) (index : Z) (c : config) : outcome config :=
  let index := capacity c.2 in
  if negb (index =? 0) then push data c
  else
    h' ← store c.1 (arr c.2) index data;
    Returns (h', c.2).

(** [void pop(T data)] *)
Definition pop (data : T) (c : config) : outcome config :=
  cur ← int_sub (current c.2) 1;
  Returns (c.1, {| arr := arr c.2; capacity := capacity c.2; current := cur |}).

(** [int getSize()] and [int getCapacity()] *)
Definition getSize (c : config) : Z := current c.2.
Definition getCapacity (c : config) : Z := capacity c.2.

(** The loop of [print] with [n] iterations left and loop counter [i]. *)
Fixpoint print_loop (n : nat) (i : Z) (c : config) : outcome (list (token T)) :=
  match n with
  | O => Returns []
  | S n' =>
      x ← load c.1 (arr c.2) i;
      out ← print_loop n' (i + 1) c;
      Returns (Elem x :: Str " ," :: out)
  end.

(** [void print()] *)
Definition print (c : config) : outcome (list (token T)) :=
  out ← print_loop (Z.to_nat (current c.2)) 0 c;
  Returns (out ++ [Endl]).

(** [T get(int index)]: the configuration after the call, what was written
    to [cout], and the returned value. *)
Definition get (index : Z) (c : config) : outcome (config * list (token T) * T) :=
  if index <? current c.2 then
    x ← load c.1 (arr c.2) index;
    Returns (c, [Str "At index "; Int index; Str " : "; Elem x; Endl], of_int (-1))
  else
    Returns (c, [], of_int (-1)).

(** *** Sequences of public calls *)

Inductive call : Type :=
  | Push (data : T)                  (* push(data) *)
  | PushIndex (data : T) (index : Z) (* push(data, index) *)
  | Pop (data : T)                   (* pop(data) *)
  | GetSize                          (* getSize() *)
  | GetCapacity                      (* getCapacity() *)
  | Print                            (* print() *)
  | Get (index : Z).                 (* get(index) *)

(** The configuration a call leaves behind. *)
Definition exec (k : call) (c : config) : outcome config :=
  match k with
  | Push data => push data c
  | PushIndex data index => push_index data index c
  | Pop data => pop data c
  | GetSize => let _ := getSize c in Returns c
  | GetCapacity => let _ := getCapacity c in Returns c
  | Print => _ ← print c; Returns c
  | Get index => r ← get index c; Returns r.1.1
  end.

Fixpoint run (ks : list call) (c : config) : outcome config :=
  match ks with
  | [] => Returns c
  | k :: ks' => c' ← exec k c; run ks' c'
  end.

(** A configuration is reachable when some finite sequence of public calls
    on a freshly constructed object returns it. *)
Definition reachable (c : config) : Prop :=
  ∃ (h0 : heap) (ks : list call),
    (c0 ← vectorClass_new h0; run ks c0) = Returns c.

(** What [getCapacity()] shows along a sequence of calls when it is read
    on entry to each call, and again after the call when the call changed
    it (a growth step ran). *)
Fixpoint capacity_events (ks : list call) (c : config) : outcome (list Z) :=
  match ks with
  | [] => Returns []
  | k :: ks' =>
      c' ← exec k c;
      es ← capacity_events ks' c';
      Returns (getCapacity c
               :: (if getCapacity c' =? getCapacity c then [] else [getCapacity c'])
               ++ es)
  end.

(** Replays a sequence of calls and tells whether every [pop] in it is
    issued on a container of positive length. *)
Fixpoint pops_guarded (ks : list call) (c : config) : bool :=
  match ks with
  | [] => true
  | k :: ks' =>
      match k with Pop _ => 0 <? getSize c | _ => true end
      && match exec k c with
         | Returns c' => pops_guarded ks' c'
         | Fault _ => true
         end
  end.

(** *** The abstract view of a configuration *)

(** The live elements, slots [0 .. current) of the buffer, when the buffer
    is allocated and each of these slots has been assigned. *)
Definition contents (c : config) : option (list T) :=
  b ← c.1 !! arr c.2;
  mapM id (take (Z.to_nat (current c.2)) b).

(** What every configuration of a constructed object satisfies: the buffer
    is an allocated block of [capacity] slots, at least one (the
    constructor allocates one slot and the buffer is never shrunk),
    [length ≤ capacity], [capacity] is an int, and the slots below
    [length] are live. *)
Definition buffer_ok (c : config) : Prop :=
  (∃ b, c.1 !! arr c.2 = Some b ∧ Z.of_nat (length b) = capacity c.2) ∧
  1 ≤ capacity c.2 ≤ INT_MAX ∧
  current c.2 ≤ capacity c.2 ∧
  is_Some (contents c).

(** The data-model invariants I1 - I3 of a container state. *)
Definition wf (c : config) : Prop :=
  buffer_ok c ∧ 0 ≤ current c.2.

(** The invariant of the configurations the code can reach; [length] may
    be negative there. *)
Definition inv (c : config) : Prop :=
  buffer_ok c ∧ INT_MIN ≤ current c.2 ∧ ∃ k : Z, 0 ≤ k ∧ capacity c.2 = 2 ^ k.

(** *** What a container writes *)

(** The output of [print] for the live elements [xs]: each one followed
    by the separator [" ,"], then the end of line. *)
Definition printed (xs : list T) : list (token T) :=
  (xs ≫= λ x, [Elem x; Str " ,"]) ++ [Endl].

(** The output of [get(index)] when it prints the element [x]. *)
Definition got (index : Z) (x : T) : list (token T) :=
  [Str "At index "; Int index; Str " : "; Elem x; Endl].

(** *** Measures of a run *)

(** By how much a call changes the length when it returns: [push] ends in
    [current++], [pop] is [current--], the other calls do not assign
    [current]. *)
Definition size_delta (k : call) : Z :=
  match k with
  | Push _ | PushIndex _ _ => 1
  | Pop _ => -1
  | GetSize | GetCapacity | Print | Get _ => 0
  end.

(** [push] with a counter: the copy loop, the growth step and [push]
    again, each returning beside its result the number of assignments
    [tmep[i] = arr[i]] it has executed. *)
Fixpoint copy_loop_counting (n : nat) (i : Z) (src dst : loc) (h : heap)
  : outcome (heap * Z) :=
  match n with
  | O => Returns (h, 0)
  | S n' =>
      x ← load h src i;
      h' ← store h dst i x;
      '(h'', steps) ← copy_loop_counting n' (i + 1) src dst h';
      Returns (h'', 1 + steps)
  end.

Definition grow_counting (c : config) : outcome (config * Z) :=
  let '(h, v) := c in
  n ← int_mul 2 (capacity v);
  '(tmep, h1) ← new_array n h;
  '(h2, steps) ← copy_loop_counting (Z.to_nat (capacity v)) 0 (arr v) tmep h1;
  h3 ← delete_array (arr v) h2;
  cap ← int_mul (capacity v) 2;
  Returns (h3, {| arr := tmep; capacity := cap; current := current v |}, steps).

Definition push_counting (data : T) (c : config) : outcome (config * Z) :=
  '(h, v, steps) ← (if capacity c.2 =? current c.2 then grow_counting c
                    else Returns (c, 0));
  h' ← store h (arr v) (current v) data;
  cur ← int_add (current v) 1;
  Returns (h', {| arr := arr v; capacity := capacity v; current := cur |}, steps).

(** The assignments [tmep[i] = arr[i]] executed by a whole run of
    appends. *)
Fixpoint copy_steps_of_pushes (ds : list T) (c : config) : outcome Z :=
  match ds with
  | [] => Returns 0
  | d :: ds' =>
      '(c', steps) ← push_counting d c;
      n ← copy_steps_of_pushes ds' c';
      Returns (steps + n)
  end.

(** The object owns exactly one block on top of the heap [h0] it was
    constructed in: its buffer. *)
Definition owns (h0 : heap) (c : config) : Prop :=
  h0 !! arr c.2 = None ∧
  is_Some (c.1 !! arr c.2) ∧
  delete (arr c.2) c.1 = h0.

End VectorClass.

Arguments call T : clear implicits.

(** ** Specification-side definitions *)

(** Repeated doubling from [c] until [n] fits; [fuel] bounds the number of
    doublings. *)
Fixpoint double_until (fuel : nat) (c n : Z) : Z :=
  match fuel with
  | O => c
  | S fuel' => if n <=? c then c else double_until fuel' (2 * c) n
  end.

(** The smallest power of two that is at least [n], reached by repeated
    doubling from 1. *)
Definition pow2_ceil (n : Z) : Z := double_until (Z.to_nat n) 1 n.

(** ** vectorClass<int> *)

Abbreviation int_heap := (gmap loc (list (option Z))).

(** [vectorClass<int> objInt;] in an empty heap. *)
Definition objInt : outcome (int_heap * vectorClass) := vectorClass_new ∅.

(** [objInt] as constructed, after [push(55); push(50)], and after
    [push(55); push(50); push(510)] as in [main]. *)
Definition c_empty : int_heap * vectorClass :=
  ({[ 1%positive := [None] ]},
   {| arr := 1%positive; capacity := 1; current := 0 |}).

Definition c_two : int_heap * vectorClass :=
  ({[ 2%positive := [Some 55; Some 50] ]},
   {| arr := 2%positive; capacity := 2; current := 2 |}).

Definition c_three : int_heap * vectorClass :=
  ({[ 3%positive := [Some 55; Some 50; Some 510; None] ]},
   {| arr := 3%positive; capacity := 4; current := 3 |}).

(** A full container of [2^30 = 1073741824] elements, all zero. *)
Definition full_2_30 : int_heap * vectorClass :=
  ({[ 1%positive := replicate (Z.to_nat 1073741824) (Some 0) ]},
   {| arr := 1%positive; capacity := 1073741824; current := 1073741824 |}).

(** [objInt] after the given calls. *)
Definition objInt_after (ks : list (call Z)) : outcome (int_heap * vectorClass) :=
  c ← objInt; run id ks c.

(** ** The program [main] *)

(** [main] has a [vectorClass<int>] and a [vectorClass<char>] in one heap;
    an element of that heap is an [int] or a [char]. *)
Inductive elem : Set :=
  | EInt (z : Z)
  | EChar (a : ascii).

(** The conversions of the [int] of [return -1;] to [int] and to [char]. *)
Definition int_of_int (z : Z) : elem := EInt z.
Definition char_of_int (z : Z) : elem :=
  EChar (ascii_of_N (Z.to_N (z mod 256))).

(** [int main()]: what it writes to [cout], the value it returns and the
    heap it leaves, when started in the heap [h].  The destructors of
    [objChar] and [objInt] run in this order at the closing brace. *)
Definition main (h : gmap loc (list (option elem)))
  : outcome (list (token elem) * Z * gmap loc (list (option elem))) :=
  '(h, objInt) ← vectorClass_new h;
  '(h, objChar) ← vectorClass_new h;
  '(h, objInt) ← push (EInt 55) (h, objInt);
  '(h, objInt) ← push (EInt 50) (h, objInt);
  '(h, objInt) ← push (EInt 510) (h, objInt);
  '(h, objInt, out1, _) ← get int_of_int 2 (h, objInt);
  let out2 := [Int (getSize (h, objInt)); Str " Size "; Endl] in
  out3 ← print (h, objInt);
  '(h, objChar) ← push (EChar "A"%char) (h, objChar);
  '(h, objChar) ← push (EChar "B"%char) (h, objChar);
  '(h, objChar) ← push (EChar "C"%char) (h, objChar);
  out4 ← print (h, objChar);
  h ← vectorClass_delete (h, objChar);
  h ← vectorClass_delete (h, objInt);
  Returns (out1 ++ out2 ++ out3 ++ out4, 0, h).

(** * Verification *)

(** ** The outcome monad and int arithmetic *)

Lemma bind_Returns {A B} (k : A → outcome B) (a : A) :
  (Returns a ≫= k) = k a.
Proof. reflexivity. Qed.

Lemma bind_Fault {A B} (k : A → outcome B) (f : fault) :
  (Fault f ≫= k) = Fault f.
Proof. reflexivity. Qed.

Lemma bind_Returns_inv {A B} (k : A → outcome B) (m : outcome A) (b : B) :
  (m ≫= k) = Returns b → ∃ a, m = Returns a ∧ k a = Returns b.
Proof. destruct m as [a|f]; [eauto | discriminate]. Qed.

Lemma to_int_in (z : Z) : INT_MIN ≤ z ≤ INT_MAX → to_int z = Returns z.
Proof.
  intros Hz. unfold to_int, in_int.
  rewrite (proj2 (Z.leb_le _ _)), (proj2 (Z.leb_le _ _)) by lia. reflexivity.
Qed.

Lemma to_int_out (z : Z) : z < INT_MIN ∨ INT_MAX < z → to_int z = Fault SignedOverflow.
Proof.
  intros Hz. unfold to_int, in_int.
  destruct (Z.leb_spec INT_MIN z), (Z.leb_spec z INT_MAX); simpl; try reflexivity; lia.
Qed.

Lemma to_int_Returns (z r : Z) : to_int z = Returns r → r = z ∧ INT_MIN ≤ z ≤ INT_MAX.
Proof.
  unfold to_int, in_int.
  destruct (Z.leb_spec INT_MIN z), (Z.leb_spec z INT_MAX); simpl; intros [=]; subst; lia.
Qed.

(** ** Powers of two reached by doubling *)

Lemma double_until_spec (n : Z) (fuel : nat) :
  ∀ c j : Z,
    0 ≤ j → c = 2 ^ j → n ≤ c + Z.of_nat fuel → j = 0 ∨ c < 2 * n →
    ∃ k, 0 ≤ k ∧ double_until fuel c n = 2 ^ k ∧ n ≤ 2 ^ k ∧ (k = 0 ∨ 2 ^ k < 2 * n).
Proof.
  induction fuel as [|fuel IH]; intros c j Hj Hc Hfuel Hmin; simpl.
  - exists j. subst c. split_and!; auto with lia.
  - destruct (Z.leb_spec n c) as [Hle|Hgt].
    + exists j. subst c. split_and!; auto with lia.
    + assert (0 < 2 ^ j) by (apply Z.pow_pos_nonneg; lia).
      apply (IH (2 * c) (j + 1)); [lia | | lia | lia].
      rewrite Z.pow_add_r by lia. lia.
Qed.

Lemma pow2_ceil_spec (n : Z) :
  ∃ k, 0 ≤ k ∧ pow2_ceil n = 2 ^ k ∧ n ≤ 2 ^ k ∧ (k = 0 ∨ 2 ^ k < 2 * n).
Proof. apply (double_until_spec n _ 1 0); [lia | done | lia | by left]. Qed.

(** A power of two that is at least [n] and less than [2 * n] (or is 1)
    is the least power of two that is at least [n]. *)
Lemma pow2_least (n k : Z) :
  0 ≤ k → n ≤ 2 ^ k → k = 0 ∨ 2 ^ k < 2 * n →
  ∀ j, 0 ≤ j → n ≤ 2 ^ j → 2 ^ k ≤ 2 ^ j.
Proof.
  intros Hk Hn Hmin j Hj Hnj. apply Z.pow_le_mono_r; [lia|].
  destruct Hmin as [->|Hlt]; [lia|].
  assert (2 ^ k < 2 ^ (j + 1)) as Hkj by (rewrite Z.pow_add_r; lia).
  apply Z.pow_lt_mono_r_iff in Hkj; lia.
Qed.

Lemma pow2_ceil_unique (n k : Z) :
  0 ≤ k → n ≤ 2 ^ k → k = 0 ∨ 2 ^ k < 2 * n → pow2_ceil n = 2 ^ k.
Proof.
  intros Hk Hn Hmin.
  destruct (pow2_ceil_spec n) as (k' & Hk' & -> & Hn' & Hmin').
  apply Z.le_antisymm; eauto using pow2_least.
Qed.

(** How the least power of two moves from [n] to [n + 1]: it doubles when
    [n] is itself that power of two. *)
Lemma pow2_ceil_succ (n : Z) :
  0 ≤ n →
  pow2_ceil (n + 1)
  = (if pow2_ceil n =? n then 2 * pow2_ceil n else pow2_ceil n).
Proof.
  intros Hn. destruct (pow2_ceil_spec n) as (k & Hk & Hpow & Hle & Hmin).
  assert (0 < 2 ^ k) by (apply Z.pow_pos_nonneg; lia).
  rewrite Hpow. destruct (Z.eqb_spec (2 ^ k) n) as [Heq|Hne].
  - replace (2 * 2 ^ k) with (2 ^ (k + 1)) by (rewrite Z.pow_add_r; lia).
    apply pow2_ceil_unique; [lia | | right]; rewrite Z.pow_add_r; lia.
  - apply pow2_ceil_unique; [lia | lia |]. destruct Hmin; [by left | right; lia].
Qed.

Section Proofs.

Context {T : Type} (of_int : Z → T).

Local Abbreviation block := (list (option T)).
Local Abbreviation heap := (gmap loc block).
Local Abbreviation config := (heap * vectorClass)%type.

Implicit Types (h : heap) (v : vectorClass) (c : config) (b : block).
Implicit Types (xs : list T) (data : T) (index i : Z) (p : loc).

(** ** Memory operations *)

Lemma load_Some h p b i x :
  h !! p = Some b → 0 ≤ i → b !! Z.to_nat i = Some (Some x) →
  load h p i = Returns x.
Proof.
  intros Hp Hi Hx. unfold load. rewrite Hp.
  destruct (Z.ltb_spec i 0); [lia|]. by rewrite Hx.
Qed.

Lemma load_negative h p b i :
  h !! p = Some b → i < 0 → load h p i = (Fault OutOfBounds : outcome T).
Proof.
  intros Hp Hi. unfold load. rewrite Hp.
  destruct (Z.ltb_spec i 0); [done | lia].
Qed.

Lemma store_in h p b i x :
  h !! p = Some b → 0 ≤ i < Z.of_nat (length b) →
  store h p i x = Returns (<[p := <[Z.to_nat i := Some x]> b]> h).
Proof.
  intros Hp Hi. unfold store. rewrite Hp.
  destruct (Z.ltb_spec i 0); [lia|].
  destruct (Z.leb_spec (Z.of_nat (length b)) i); [lia | done].
Qed.

Lemma store_out h p b i x :
  h !! p = Some b → i < 0 ∨ Z.of_nat (length b) ≤ i →
  store h p i x = Fault OutOfBounds.
Proof.
  intros Hp Hi. unfold store. rewrite Hp.
  destruct (Z.ltb_spec i 0); [done|].
  destruct (Z.leb_spec (Z.of_nat (length b)) i); [done | lia].
Qed.

Lemma fresh_not_allocated h : h !! fresh (dom h) = None.
Proof. apply not_elem_of_dom, is_fresh. Qed.

(** ** The abstract view *)

Lemma mapM_id_Some (l : block) xs : mapM id l = Some xs ↔ l = Some <$> xs.
Proof.
  rewrite mapM_Some. split.
  - induction 1 as [|o x l xs Hx _ IH]; csimpl; [done|].
    unfold id in Hx. by rewrite Hx, IH.
  - intros ->. induction xs; constructor; done.
Qed.

Lemma contents_Some c xs :
  contents c = Some xs ↔
  ∃ b, c.1 !! arr c.2 = Some b ∧ take (Z.to_nat (current c.2)) b = Some <$> xs.
Proof.
  unfold contents. destruct (c.1 !! arr c.2) as [b|]; simpl.
  - rewrite mapM_id_Some. split; [eauto|]. by intros (? & [= <-] & ?).
  - split; [done|]. by intros (? & ? & ?).
Qed.

Lemma contents_length c xs :
  buffer_ok c → contents c = Some xs →
  Z.of_nat (length xs) = Z.max 0 (current c.2).
Proof.
  intros ((b & Hb & Hlen) & _ & Hle & _) (b' & Hb' & Htake)%contents_Some.
  assert (b' = b) as -> by congruence.
  apply (f_equal length) in Htake. rewrite length_take, length_fmap in Htake. lia.
Qed.

(** ** The copy loop of the growth step *)

Lemma copy_loop_spec xs (src dst : loc) :
  src ≠ dst →
  ∀ (n i : nat) h (bd : block),
    h !! src = Some (Some <$> xs) →
    h !! dst = Some bd →
    (i + n = length xs)%nat →
    (length xs ≤ length bd)%nat →
    take i bd = Some <$> take i xs →
    copy_loop n (Z.of_nat i) src dst h
    = Returns (<[dst := (Some <$> xs) ++ drop (length xs) bd]> h).
Proof.
  intros Hne n. induction n as [|n IH]; intros i h bd Hsrc Hdst Hin Hlen Htake; simpl.
  - f_equal. symmetry. apply insert_id. rewrite Hdst. f_equal.
    assert (i = length xs) as -> by lia.
    rewrite (take_ge xs) in Htake by lia.
    by rewrite <- Htake, take_drop.
  - destruct (lookup_lt_is_Some_2 xs i) as [x Hx]; [lia|].
    erewrite load_Some; [| exact Hsrc | lia |]; last first.
    { rewrite Nat2Z.id, list_lookup_fmap, Hx. done. }
    rewrite bind_Returns.
    erewrite store_in; [| exact Hdst | lia].
    rewrite bind_Returns, Nat2Z.id.
    replace (Z.of_nat i + 1) with (Z.of_nat (S i)) by lia.
    rewrite (IH (S i) _ (<[i := Some x]> bd)).
    + rewrite insert_insert_eq. do 2 f_equal.
      rewrite drop_insert_lt by lia. done.
    + by rewrite lookup_insert_ne.
    + by rewrite lookup_insert_eq.
    + lia.
    + by rewrite length_insert.
    + rewrite (take_S_r xs i x) by done.
      rewrite (take_S_r _ i (Some x)).
      * rewrite take_insert_ge by lia. rewrite Htake, fmap_app. done.
      * apply list_lookup_insert_eq. lia.
Qed.

(** ** The growth step *)

(** When the buffer is full and [2 * capacity] is an int, the growth step
    allocates a fresh block of [2 * capacity] slots, copies the buffer to
    its front, frees the old block and adopts the new one. *)
Lemma grow_spec h v xs :
  h !! arr v = Some (Some <$> xs) →
  Z.of_nat (length xs) = capacity v →
  2 * capacity v ≤ INT_MAX →
  grow (h, v)
  = Returns
      (<[fresh (dom h) := (Some <$> xs) ++ replicate (length xs) None]>
         (delete (arr v) h),
       {| arr := fresh (dom h); capacity := 2 * capacity v; current := current v |}).
Proof.
  intros Hb Hlen Hcap. unfold grow.
  assert (INT_MIN ≤ 0) by (unfold INT_MIN; lia).
  unfold int_mul.
  rewrite (to_int_in (2 * capacity v)), (to_int_in (capacity v * 2)) by lia.
  rewrite bind_Returns.
  unfold new_array. destruct (Z.ltb_spec (2 * capacity v) 0); [lia|].
  rewrite bind_Returns. cbv beta iota.
  set (p := fresh (dom h)).
  assert (Hp : h !! p = None) by apply fresh_not_allocated.
  assert (Hne : arr v ≠ p) by congruence.
  replace (Z.to_nat (capacity v)) with (length xs) by lia.
  rewrite (copy_loop_spec xs (arr v) p Hne (length xs) 0 _
             (replicate (Z.to_nat (2 * capacity v)) None)).
  - rewrite bind_Returns, insert_insert_eq.
    unfold delete_array. rewrite lookup_insert_ne, Hb by done.
    rewrite !bind_Returns, (Z.mul_comm (capacity v) 2). do 2 f_equal.
    rewrite delete_insert_ne by done. do 2 f_equal.
    rewrite drop_replicate. f_equal. lia.
  - by rewrite lookup_insert_ne.
  - by rewrite lookup_insert_eq.
  - lia.
  - rewrite length_replicate. lia.
  - done.
Qed.

Lemma grow_overflow c :
  INT_MAX < 2 * capacity c.2 → grow c = Fault SignedOverflow.
Proof.
  intros Hcap. destruct c as [h v]. simpl in Hcap. unfold grow, int_mul.
  rewrite (to_int_out (2 * capacity v)) by (right; exact Hcap). reflexivity.
Qed.

(** ** push *)

(** Appending into a buffer that has room. *)
Lemma push_room h v b data :
  h !! arr v = Some b →
  Z.of_nat (length b) = capacity v →
  0 ≤ current v < capacity v →
  capacity v ≤ INT_MAX →
  push data (h, v)
  = Returns (<[arr v := <[Z.to_nat (current v) := Some data]> b]> h,
             {| arr := arr v; capacity := capacity v; current := current v + 1 |}).
Proof.
  intros Hb Hlen Hcur Hcap. unfold push. simpl.
  destruct (Z.eqb_spec (capacity v) (current v)); [lia|].
  rewrite bind_Returns. erewrite store_in; [| exact Hb | lia].
  unfold int_add. rewrite to_int_in by (unfold INT_MIN; lia). reflexivity.
Qed.

(** Appending into a full buffer: the growth step runs first. *)
Lemma push_full h v xs data :
  h !! arr v = Some (Some <$> xs) →
  Z.of_nat (length xs) = capacity v →
  current v = capacity v →
  2 * capacity v ≤ INT_MAX →
  1 ≤ capacity v →
  push data (h, v)
  = Returns
      (<[fresh (dom h) :=
           (Some <$> xs ++ [data]) ++ replicate (length xs - 1) None]>
         (delete (arr v) h),
       {| arr := fresh (dom h); capacity := 2 * capacity v;
          current := current v + 1 |}).
Proof.
  intros Hb Hlen Hcur Hcap Hpos. unfold push. cbn [fst snd].
  destruct (Z.eqb_spec (capacity v) (current v)); [|lia].
  rewrite (grow_spec h v xs) by done. rewrite bind_Returns. cbn [arr capacity current].
  erewrite store_in; [| apply lookup_insert_eq |]; last first.
  { rewrite length_app, length_fmap, length_replicate. lia. }
  unfold int_add. rewrite to_int_in by (unfold INT_MIN; lia).
  rewrite !bind_Returns, insert_insert_eq. do 3 f_equal.
  replace (Z.to_nat (current v)) with (length (Some <$> xs) + 0)%nat
    by (rewrite length_fmap; lia).
  rewrite insert_app_r, fmap_app, <- app_assoc. f_equal.
  destruct (length xs) as [|n] eqn:Hn; [lia|].
  simpl. by rewrite Nat.sub_0_r.
Qed.

(** Appending into a full buffer of more than [INT_MAX / 2] slots: the size
    [2 * capacity] of the new buffer is not an int. *)
Lemma push_overflow c data :
  capacity c.2 = current c.2 →
  INT_MAX < 2 * capacity c.2 →
  push data c = Fault SignedOverflow.
Proof.
  intros Hfull Hcap. unfold push.
  destruct (Z.eqb_spec (capacity c.2) (current c.2)); [|done].
  by rewrite grow_overflow.
Qed.

(** Appending when [current] is negative writes before the buffer. *)
Lemma push_negative c data :
  buffer_ok c → current c.2 < 0 → push data c = Fault OutOfBounds.
Proof.
  intros ((b & Hb & Hlen) & Hcap & _) Hneg. unfold push.
  destruct (Z.eqb_spec (capacity c.2) (current c.2)); [lia|].
  rewrite bind_Returns. destruct c as [h v]; cbn [fst snd] in *.
  erewrite store_out; [done | exact Hb | lia].
Qed.

(** The effect of [push] on a container state, in one statement. *)
Lemma push_wf c xs data :
  wf c → contents c = Some xs →
  (current c.2 = capacity c.2 → 2 * capacity c.2 ≤ INT_MAX) →
  ∃ c', push data c = Returns c' ∧
        wf c' ∧
        contents c' = Some (xs ++ [data]) ∧
        current c'.2 = current c.2 + 1 ∧
        capacity c'.2
        = (if capacity c.2 =? current c.2 then 2 * capacity c.2 else capacity c.2).
Proof.
  intros [Hok Hcur] Hxs Hfit.
  pose proof (contents_length c xs Hok Hxs) as Hlenxs.
  destruct Hok as ((b & Hb & Hlen) & Hcap & Hle & _).
  apply contents_Some in Hxs as (b' & Hb' & Htake).
  assert (b' = b) as -> by congruence. clear Hb'.
  destruct c as [h v]; cbn [fst snd] in *.
  destruct (Z.eqb_spec (capacity v) (current v)) as [Hfull|Hroom].
  - rewrite take_ge in Htake by lia. subst b.
    rewrite length_fmap in Hlen.
    eexists. split; [apply (push_full h v xs); auto with lia; done|].
    unfold wf, buffer_ok. cbn [fst snd arr capacity current].
    assert (HS : (length xs - 1 + 1 = length xs)%nat) by lia.
    split_and!; try lia.
    + eexists. split; [apply lookup_insert_eq|].
      rewrite length_app, length_fmap, length_app, length_replicate. simpl. lia.
    + apply (mk_is_Some _ (xs ++ [data])), contents_Some. cbn [fst snd arr capacity current].
      eexists. split; [apply lookup_insert_eq|].
      apply take_app_length'. rewrite length_fmap, length_app. simpl. lia.
    + apply contents_Some. cbn [fst snd arr capacity current].
      eexists. split; [apply lookup_insert_eq|].
      apply take_app_length'. rewrite length_fmap, length_app. simpl. lia.
  - eexists. split; [apply (push_room h v b); auto with lia; done|].
    unfold wf, buffer_ok. cbn [fst snd arr capacity current].
    assert (Hins : take (Z.to_nat (current v + 1))
                     (<[Z.to_nat (current v) := Some data]> b)
                   = Some <$> xs ++ [data]).
    { replace (Z.to_nat (current v + 1)) with (S (Z.to_nat (current v))) by lia.
      erewrite take_S_r; [| apply list_lookup_insert_eq; lia].
      rewrite take_insert_ge by lia. by rewrite Htake, fmap_app. }
    split_and!; try lia.
    + eexists. split; [apply lookup_insert_eq|]. rewrite length_insert. lia.
    + apply (mk_is_Some _ (xs ++ [data])), contents_Some. cbn [fst snd arr capacity current].
      eexists. split; [apply lookup_insert_eq | exact Hins].
    + apply contents_Some. cbn [fst snd arr capacity current].
      eexists. split; [apply lookup_insert_eq | exact Hins].
Qed.

(** What [push] does to the heap: without growth only the buffer changes;
    with growth the new buffer is a block that was not allocated before,
    it has [2 * capacity] slots, the old buffer is freed, and no other
    block changes. *)
Lemma push_heap c data c' :
  wf c → push data c = Returns c' →
  (capacity c.2 ≠ current c.2 →
     arr c'.2 = arr c.2 ∧
     ∀ p, p ≠ arr c.2 → c'.1 !! p = c.1 !! p) ∧
  (capacity c.2 = current c.2 →
     c.1 !! arr c'.2 = None ∧
     (∃ b', c'.1 !! arr c'.2 = Some b' ∧
            Z.of_nat (length b') = 2 * capacity c.2) ∧
     c'.1 !! arr c.2 = None ∧
     ∀ p, p ≠ arr c.2 → p ≠ arr c'.2 → c'.1 !! p = c.1 !! p).
Proof.
  intros [Hok Hcur] Hpush.
  destruct Hok as ((b & Hb & Hlen) & Hcap & Hle & [xs Hxs]).
  apply contents_Some in Hxs as (b' & Hb' & Htake).
  assert (b' = b) as -> by congruence. clear Hb'.
  destruct c as [h v]; cbn [fst snd] in *.
  split; intros Hfull.
  - rewrite (push_room h v b) in Hpush by (auto with lia).
    injection Hpush as <-. cbn [fst snd arr]. split; [done|].
    intros p Hp. by rewrite lookup_insert_ne.
  - destruct (Z.le_gt_cases (2 * capacity v) INT_MAX) as [Hfit|Hover]; last first.
    { rewrite push_overflow in Hpush by (cbn [snd]; lia). discriminate. }
    rewrite take_ge in Htake by lia. subst b. rewrite length_fmap in Hlen.
    rewrite (push_full h v xs) in Hpush by (auto with lia).
    injection Hpush as <-. cbn [fst snd arr].
    assert (Hfresh : h !! fresh (dom h) = None) by apply fresh_not_allocated.
    assert (Hne : fresh (dom h) ≠ arr v) by congruence.
    split_and!.
    + done.
    + eexists. split; [apply lookup_insert_eq|].
      rewrite length_app, length_fmap, length_app, length_replicate.
      cbn [length]. lia.
    + rewrite lookup_insert_ne by done. apply lookup_delete_eq.
    + intros p Hp1 Hp2. by rewrite lookup_insert_ne, lookup_delete_ne.
Qed.

(** Reading a live slot yields the element of the abstract view. *)
Lemma load_contents c xs i x :
  contents c = Some xs → 0 ≤ i → xs !! Z.to_nat i = Some x →
  load c.1 (arr c.2) i = Returns x.
Proof.
  intros (b & Hb & Htake)%contents_Some Hi Hx.
  apply (load_Some _ _ b); [done..|].
  assert (Hlt : (Z.to_nat i < length xs)%nat) by (by eapply lookup_lt_Some).
  apply (f_equal length) in Htake as Hlen.
  rewrite length_take, length_fmap in Hlen.
  rewrite <- (lookup_take_lt b (Z.to_nat (current c.2))) by lia.
  by rewrite Htake, list_lookup_fmap, Hx.
Qed.

(** ** push with an index *)

Lemma push_index_push c data index :
  capacity c.2 ≠ 0 → push_index data index c = push data c.
Proof.
  intros Hcap. unfold push_index.
  by destruct (Z.eqb_spec (capacity c.2) 0).
Qed.

(** ** pop *)

Lemma pop_spec c data :
  INT_MIN < current c.2 ≤ INT_MAX →
  pop data c
  = Returns (c.1, {| arr := arr c.2; capacity := capacity c.2;
                     current := current c.2 - 1 |}).
Proof.
  intros Hcur. unfold pop, int_sub. by rewrite to_int_in by (unfold INT_MAX in *; lia).
Qed.

Lemma pop_Returns c data c' :
  pop data c = Returns c' →
  c' = (c.1, {| arr := arr c.2; capacity := capacity c.2;
                current := current c.2 - 1 |}) ∧
  INT_MIN ≤ current c.2 - 1.
Proof.
  unfold pop, int_sub. intros (cur & [-> Hcur]%to_int_Returns & [= <-])%bind_Returns_inv.
  split; [done | lia].
Qed.

(** ** get *)

Lemma get_beyond c index :
  current c.2 ≤ index → get of_int index c = Returns (c, [], of_int (-1)).
Proof.
  intros Hge. unfold get. by destruct (Z.ltb_spec index (current c.2)); [lia|].
Qed.

Lemma get_live c xs index x :
  contents c = Some xs → 0 ≤ index < current c.2 →
  xs !! Z.to_nat index = Some x →
  get of_int index c
  = Returns (c, [Str "At index "; Int index; Str " : "; Elem x; Endl],
             of_int (-1)).
Proof.
  intros Hxs Hidx Hx. unfold get.
  destruct (Z.ltb_spec index (current c.2)); [|lia].
  by rewrite (load_contents c xs index x) by (done || lia).
Qed.

Lemma get_negative c index :
  buffer_ok c → index < 0 → index < current c.2 →
  get of_int index c = Fault OutOfBounds.
Proof.
  intros ((b & Hb & _) & _) Hneg Hlt. unfold get.
  destruct (Z.ltb_spec index (current c.2)); [|lia].
  by rewrite (load_negative _ _ b).
Qed.

Lemma get_Returns c index r :
  get of_int index c = Returns r → r.1.1 = c ∧ r.2 = of_int (-1).
Proof.
  unfold get. destruct (index <? current c.2).
  - by intros (x & _ & [= <-])%bind_Returns_inv.
  - by intros [= <-].
Qed.

(** ** Construction *)

Lemma vectorClass_new_spec h :
  vectorClass_new h
  = Returns (<[fresh (dom h) := [None]]> h,
             {| arr := fresh (dom h); capacity := 1; current := 0 |}).
Proof. reflexivity. Qed.

Lemma vectorClass_new_wf h c :
  vectorClass_new h = Returns c → wf c ∧ contents c = Some [].
Proof.
  rewrite vectorClass_new_spec. intros [= <-].
  assert (Hc : contents (<[fresh (dom h) := [None]]> h,
                         {| arr := fresh (dom h); capacity := 1; current := 0 |})
               = Some ([] : list T)).
  { apply contents_Some. eexists. split; [apply lookup_insert_eq | done]. }
  split; [|done]. unfold wf, buffer_ok. rewrite Hc. cbn [fst snd arr capacity current].
  split_and!; try done.
  eexists. split; [apply lookup_insert_eq | done].
Qed.

(** ** How a call changes capacity *)

Lemma grow_capacity c c' :
  grow c = Returns c' →
  capacity c'.2 = 2 * capacity c.2 ∧ current c'.2 = current c.2.
Proof.
  destruct c as [h v]. unfold grow, int_mul.
  intros (n & _ & ([tmep h1] & _ & (h2 & _ & (h3 & _ &
            (cap & [-> _]%to_int_Returns & [= <-])%bind_Returns_inv
          )%bind_Returns_inv)%bind_Returns_inv)%bind_Returns_inv)%bind_Returns_inv.
  cbn [snd capacity current]. lia.
Qed.

Lemma push_capacity c data c' :
  push data c = Returns c' →
  capacity c'.2
  = (if capacity c.2 =? current c.2 then 2 * capacity c.2 else capacity c.2).
Proof.
  unfold push.
  intros ([h v] & Hg & (h' & _ & (cur & _ & [= <-])%bind_Returns_inv
         )%bind_Returns_inv)%bind_Returns_inv.
  cbn [snd capacity].
  destruct (capacity c.2 =? current c.2).
  - apply grow_capacity in Hg as [Hg _]. exact Hg.
  - by injection Hg as ->.
Qed.

Lemma push_index_capacity c data index c' :
  push_index data index c = Returns c' →
  capacity c'.2
  = (if capacity c.2 =? current c.2 then 2 * capacity c.2 else capacity c.2).
Proof.
  unfold push_index. destruct (Z.eqb_spec (capacity c.2) 0) as [Hz|Hnz]; simpl.
  - rewrite Hz. unfold store. destruct (c.1 !! arr c.2) as [b|]; [|done].
    destruct (Z.leb_spec (Z.of_nat (length b)) 0); [by rewrite orb_true_r|].
    cbn [orb]. intros [= <-]. cbn [snd]. rewrite Hz.
    by destruct (0 =? current c.2).
  - apply push_capacity.
Qed.

Lemma exec_unchanged (k : call T) c c' :
  match k with Push _ | PushIndex _ _ | Pop _ => False | _ => True end →
  exec of_int k c = Returns c' → c' = c.
Proof.
  destruct k; try done; intros _; simpl.
  - by intros [= <-].
  - by intros [= <-].
  - by intros (out & _ & [= <-])%bind_Returns_inv.
  - by intros (r & [<- _]%get_Returns & [= <-])%bind_Returns_inv.
Qed.

Local Ltac unchanged Hk :=
  match type of Hk with
  | exec _ ?k ?c = Returns ?c' => rewrite (exec_unchanged k c c' I Hk)
  end.

(** A call leaves capacity alone unless it is an append into a full
    buffer, which doubles it. *)
Lemma exec_capacity (k : call T) c c' :
  exec of_int k c = Returns c' →
  capacity c'.2 = capacity c.2 ∨
  ((∃ data, k = Push data ∨ ∃ index, k = PushIndex data index) ∧
   capacity c.2 = current c.2 ∧
   capacity c'.2 = 2 * capacity c.2).
Proof.
  intros Hk.
  destruct k as [data|data index|data| | | |index];
    try (left; by unchanged Hk).
  - apply (push_capacity c data) in Hk.
    destruct (Z.eqb_spec (capacity c.2) (current c.2)); [right | by left].
    split_and!; [exists data; by left | done..].
  - apply (push_index_capacity c data index) in Hk.
    destruct (Z.eqb_spec (capacity c.2) (current c.2)); [right | by left].
    split_and!; [exists data; right; by exists index | done..].
  - left. by apply pop_Returns in Hk as [-> _].
Qed.

(** ** The invariant of reachable configurations *)

Lemma contents_shrink c n :
  is_Some (contents c) → n ≤ current c.2 →
  is_Some (contents (c.1, {| arr := arr c.2; capacity := capacity c.2;
                             current := n |})).
Proof.
  intros [xs (b & Hb & Htake)%contents_Some] Hn.
  exists (take (Z.to_nat n) xs). apply contents_Some. cbn [fst snd arr current].
  exists b. split; [done|].
  rewrite fmap_take, <- Htake, take_take. f_equal. lia.
Qed.

Lemma inv_push c data c' :
  inv c → push data c = Returns c' → inv c'.
Proof.
  intros (Hok & Hmin & k & Hk & Hpow) Hpush.
  destruct (Z.lt_ge_cases (current c.2) 0) as [Hneg|Hpos].
  { rewrite push_negative in Hpush by done. discriminate. }
  destruct (decide (capacity c.2 = current c.2 ∧ INT_MAX < 2 * capacity c.2))
    as [[Hfull Hover]|Hfit].
  { rewrite push_overflow in Hpush by done. discriminate. }
  pose proof Hok as (_ & _ & _ & [xs Hxs]).
  destruct (push_wf c xs data) as (c'' & Hpush' & [Hok' Hcur'] & _ & Hsz & Hcap);
    [by split | done | lia |].
  assert (c'' = c') as -> by congruence.
  split_and!; [done | lia |].
  rewrite Hcap. destruct (capacity c.2 =? current c.2).
  - exists (k + 1). split; [lia|]. rewrite Z.pow_add_r, Hpow by lia. lia.
  - eauto.
Qed.

Lemma inv_pop c data c' :
  inv c → pop data c = Returns c' → inv c'.
Proof.
  intros (Hok & Hmin & Hpow) [-> Hmin']%pop_Returns.
  destruct Hok as (Hb & Hcap & Hle & Hxs).
  unfold inv, buffer_ok. cbn [fst snd arr capacity current].
  split_and!; try done; try lia.
  apply contents_shrink; [done | lia].
Qed.

Lemma inv_exec (k : call T) c c' :
  inv c → exec of_int k c = Returns c' → inv c'.
Proof.
  intros Hinv Hk.
  destruct k as [data|data index|data| | | |index];
    try (by unchanged Hk).
  - by apply (inv_push c data).
  - cbn [exec] in Hk. rewrite push_index_push in Hk; [by apply (inv_push c data)|].
    destruct Hinv as ((_ & Hcap & _) & _). lia.
  - by apply (inv_pop c data).
Qed.

Lemma inv_run (ks : list (call T)) c c' :
  inv c → run of_int ks c = Returns c' → inv c'.
Proof.
  revert c. induction ks as [|k ks IH]; intros c Hinv; simpl.
  - by intros [= <-].
  - intros (c1 & Hk & Hrun)%bind_Returns_inv. eauto using inv_exec.
Qed.

Lemma reachable_inv c : reachable of_int c → inv c.
Proof.
  intros (h0 & ks & (c0 & Hnew & Hrun)%bind_Returns_inv).
  apply (inv_run ks c0); [|done].
  apply vectorClass_new_wf in Hnew as Hwf. destruct Hwf as [[Hok Hcur] _].
  rewrite vectorClass_new_spec in Hnew. injection Hnew as <-.
  split_and!; [done | cbn; unfold INT_MIN; lia |].
  exists 0. cbn. lia.
Qed.

(** ** Runs *)

Lemma run_app (ks1 ks2 : list (call T)) c :
  run of_int (ks1 ++ ks2) c = (c' ← run of_int ks1 c; run of_int ks2 c').
Proof.
  revert c. induction ks1 as [|k ks1 IH]; intros c; [done|].
  cbn [app run]. destruct (exec of_int k c) as [c1|f]; [|done].
  rewrite !bind_Returns. apply IH.
Qed.

(** A run of appends on a container whose capacity is the least power of
    two for its length, as long as the length stays within [2^30]. *)
Lemma run_pushes (ds : list T) :
  ∀ c xs,
    wf c → contents c = Some xs →
    capacity c.2 = pow2_ceil (current c.2) →
    current c.2 + Z.of_nat (length ds) ≤ 2 ^ 30 →
    ∃ c', run of_int (Push <$> ds) c = Returns c' ∧
          wf c' ∧
          contents c' = Some (xs ++ ds) ∧
          capacity c'.2 = pow2_ceil (current c'.2) ∧
          current c'.2 = current c.2 + Z.of_nat (length ds).
Proof.
  induction ds as [|d ds IH]; intros c xs Hwf Hxs Hcap Hlen.
  - exists c. rewrite app_nil_r. cbn [length]. split_and!; auto with lia.
  - change (length (d :: ds)) with (S (length ds)) in *.
    destruct (push_wf c xs d) as (c1 & Hpush & Hwf1 & Hxs1 & Hcur1 & Hcap1);
      [done | done | |].
    { intros Hfull. change (2 ^ 30) with 1073741824 in Hlen.
      unfold INT_MAX. lia. }
    destruct (IH c1 (xs ++ [d])) as (c' & Hrun & Hwf' & Hxs' & Hcap' & Hcur');
      [done | done | | lia |].
    { rewrite Hcap1, Hcur1, pow2_ceil_succ by (destruct Hwf; lia).
      by rewrite <- Hcap. }
    exists c'. rewrite fmap_cons. cbn [run exec]. rewrite Hpush, bind_Returns.
    split_and!; [done | done | | done | lia].
    by rewrite Hxs', <- app_assoc.
Qed.

(** The capacity events of a run of appends: on entry to each append the
    least power of two for the length so far, followed by the next one
    when the append had to grow. *)
Lemma capacity_events_pushes (ds : list T) :
  ∀ c xs,
    wf c → contents c = Some xs →
    capacity c.2 = pow2_ceil (current c.2) →
    current c.2 + Z.of_nat (length ds) ≤ 2 ^ 30 →
    capacity_events of_int (Push <$> ds) c
    = Returns
        (concat
           ((λ i : nat,
               pow2_ceil (current c.2 + Z.of_nat i)
               :: (if pow2_ceil (current c.2 + Z.of_nat i + 1)
                      =? pow2_ceil (current c.2 + Z.of_nat i)
                   then [] else [pow2_ceil (current c.2 + Z.of_nat i + 1)]))
              <$> seq 0 (length ds))).
Proof.
  induction ds as [|d ds IH]; intros c xs Hwf Hxs Hcap Hlen; [done|].
  change (length (d :: ds)) with (S (length ds)) in *.
  destruct (push_wf c xs d) as (c1 & Hpush & Hwf1 & Hxs1 & Hcur1 & Hcap1);
    [done | done | |].
  { intros Hfull. change (2 ^ 30) with 1073741824 in Hlen.
    unfold INT_MAX. lia. }
  assert (Hcap1' : capacity c1.2 = pow2_ceil (current c1.2)).
  { rewrite Hcap1, Hcur1, pow2_ceil_succ by (destruct Hwf; lia).
    by rewrite <- Hcap. }
  rewrite fmap_cons. cbn [capacity_events exec]. rewrite Hpush, bind_Returns.
  rewrite (IH c1 (xs ++ [d])); [| done | done | done | lia].
  rewrite bind_Returns. f_equal.
  change (seq 0 (S (length ds))) with (0%nat :: seq 1 (length ds)).
  rewrite fmap_cons, <- fmap_S_seq, <- list_fmap_compose. cbn [concat].
  unfold getCapacity. rewrite Hcap1', Hcur1, Hcap.
  change (Z.of_nat 0) with 0. rewrite Z.add_0_r. cbn [app]. do 3 f_equal.
  apply list_fmap_ext. intros _ i _. cbn.
  replace (current c.2 + 1 + Z.of_nat i) with (current c.2 + Z.of_nat (S i)) by lia.
  done.
Qed.

(** * The claims *)

(** C1 (amended).  For every container state that satisfies the data-model
    invariants, and in which [2 * capacity] is an int whenever the buffer
    is full, [push(v)] returns; the new length is the old length plus one,
    [v] is stored at slot old-length and every earlier element keeps its
    value and index.  When the buffer has room, the buffer and capacity
    stay and no other block changes.  When it is full, capacity doubles,
    the new buffer is a block that was not allocated before and has
    [2 * capacity] slots, the old buffer is freed, and no other block
    changes. *)
Theorem push_appends c xs data :
  wf c → contents c = Some xs →
  (getSize c = getCapacity c → 2 * getCapacity c ≤ INT_MAX) →
  ∃ c', push data c = Returns c' ∧
        getSize c' = getSize c + 1 ∧
        contents c' = Some (xs ++ [data]) ∧
        load c'.1 (arr c'.2) (getSize c) = Returns data ∧
        (∀ i, 0 ≤ i < getSize c →
              load c'.1 (arr c'.2) i = load c.1 (arr c.2) i) ∧
        wf c' ∧
        (getSize c ≠ getCapacity c →
           getCapacity c' = getCapacity c ∧
           arr c'.2 = arr c.2 ∧
           ∀ p, p ≠ arr c.2 → c'.1 !! p = c.1 !! p) ∧
        (getSize c = getCapacity c →
           getCapacity c' = 2 * getCapacity c ∧
           c.1 !! arr c'.2 = None ∧
           (∃ b', c'.1 !! arr c'.2 = Some b' ∧
                  Z.of_nat (length b') = 2 * getCapacity c) ∧
           c'.1 !! arr c.2 = None ∧
           ∀ p, p ≠ arr c.2 → p ≠ arr c'.2 → c'.1 !! p = c.1 !! p).
Proof.
  unfold getSize, getCapacity. intros Hwf Hxs Hfit.
  destruct (push_wf c xs data Hwf Hxs Hfit) as (c' & Hpush & Hwf' & Hxs' & Hcur & Hcap).
  destruct (push_heap c data c' Hwf Hpush) as [Hroom Hfull].
  pose proof (contents_length c xs (proj1 Hwf) Hxs) as Hlen.
  destruct Hwf as [Hok Hpos].
  exists c'. split_and!; try done.
  - apply (load_contents c' (xs ++ [data])); [done | lia |].
    replace (Z.to_nat (current c.2)) with (length xs + 0)%nat by lia.
    by rewrite lookup_app_r, Nat.add_sub' by lia.
  - intros i Hi.
    destruct (lookup_lt_is_Some_2 xs (Z.to_nat i)) as [x Hx]; [lia|].
    rewrite (load_contents c xs i x) by (done || lia).
    apply (load_contents c' (xs ++ [data])); [done | lia |].
    by apply lookup_app_l_Some.
  - intros Hne. destruct Hroom as [Harr Hother]; [done|].
    split_and!; [|done..].
    rewrite Hcap. by destruct (Z.eqb_spec (capacity c.2) (current c.2)).
  - intros Heq. destruct Hfull as (Hfresh & Hnew & Hold & Hother); [done|].
    split_and!; [|done..].
    rewrite Hcap. by destruct (Z.eqb_spec (capacity c.2) (current c.2)).
Qed.

(** C2 (amended).  For every container state: when [0 ≤ index < length],
    [get(index)] prints the element stored at [index] and returns the
    sentinel -1 converted to [T], not the element; when [index ≥ length]
    it prints nothing and returns the same sentinel instead of failing.
    In both cases the container state is unchanged. *)
Theorem get_prints_and_returns_sentinel c xs index :
  wf c → contents c = Some xs →
  (0 ≤ index < getSize c →
     ∃ x, xs !! Z.to_nat index = Some x ∧
          get of_int index c
          = Returns (c, [Str "At index "; Int index; Str " : "; Elem x; Endl],
                     of_int (-1))) ∧
  (getSize c ≤ index → get of_int index c = Returns (c, [], of_int (-1))).
Proof.
  unfold getSize. intros [Hok Hpos] Hxs.
  pose proof (contents_length c xs Hok Hxs) as Hlen.
  split.
  - intros Hi.
    destruct (lookup_lt_is_Some_2 xs (Z.to_nat index)) as [x Hx]; [lia|].
    exists x. split; [done|]. by apply (get_live c xs).
  - apply get_beyond.
Qed.

(** ** Data-model invariants along a run *)

Lemma wf_push c data c' : wf c → push data c = Returns c' → wf c'.
Proof.
  intros Hwf Hpush.
  destruct (decide (capacity c.2 = current c.2 ∧ INT_MAX < 2 * capacity c.2))
    as [[Hfull Hover]|Hfit].
  { rewrite push_overflow in Hpush by done. discriminate. }
  pose proof Hwf as [(_ & _ & _ & [xs Hxs]) _].
  destruct (push_wf c xs data) as (c'' & Hpush' & Hwf' & _); [done | done | lia |].
  congruence.
Qed.

Lemma wf_pop c data c' :
  wf c → 0 < current c.2 → pop data c = Returns c' → wf c'.
Proof.
  intros [(Hb & Hcap & Hle & Hxs) _] Hpos [-> _]%pop_Returns.
  unfold wf, buffer_ok. cbn [fst snd arr capacity current].
  split_and!; try done; try lia.
  apply contents_shrink; [done | lia].
Qed.

Lemma wf_exec (k : call T) c c' :
  wf c →
  match k with Pop _ => 0 <? getSize c | _ => true end = true →
  exec of_int k c = Returns c' → wf c'.
Proof.
  intros Hwf Hguard Hk.
  destruct k as [data|data index|data| | | |index];
    try (by unchanged Hk).
  - by apply (wf_push c data).
  - cbn [exec] in Hk. rewrite push_index_push in Hk; [by apply (wf_push c data)|].
    destruct Hwf as [(_ & Hcap & _) _]. lia.
  - apply Z.ltb_lt in Hguard. by apply (wf_pop c data).
Qed.

Lemma wf_run (ks : list (call T)) :
  ∀ c c', wf c → pops_guarded of_int ks c = true →
          run of_int ks c = Returns c' → wf c'.
Proof.
  induction ks as [|k ks IH]; intros c c' Hwf Hguard; cbn [run].
  - by intros [= <-].
  - intros (c1 & Hk & Hrun)%bind_Returns_inv.
    cbn [pops_guarded] in Hguard. rewrite Hk in Hguard.
    apply andb_true_iff in Hguard as [Hg1 Hg2].
    eauto using wf_exec.
Qed.

Lemma run_pops (ds : list T) :
  ∀ c, INT_MIN ≤ current c.2 - Z.of_nat (length ds) → current c.2 ≤ INT_MAX →
       run of_int (Pop <$> ds) c
       = Returns (c.1, {| arr := arr c.2; capacity := capacity c.2;
                          current := current c.2 - Z.of_nat (length ds) |}).
Proof.
  induction ds as [|d ds IH]; intros [h [p cap cur]] Hmin Hmax;
    cbn [fst snd arr capacity current length] in *.
  - cbn. by rewrite Z.sub_0_r.
  - rewrite fmap_cons. cbn [run exec].
    rewrite pop_spec by (cbn [snd current]; lia).
    rewrite bind_Returns, IH by (cbn [snd current]; lia).
    cbn [fst snd arr capacity current]. do 3 f_equal. lia.
Qed.

(** The upper half of I1 survives every sequence of calls. *)
Lemma reachable_size_le_capacity c :
  reachable of_int c → getSize c ≤ getCapacity c.
Proof. by intros ((_ & _ & ? & _) & _)%reachable_inv. Qed.

(** C4 (amended).  In every state whose length is above [INT_MIN],
    [pop] subtracts exactly one from the length, whether or not the
    container is empty, and changes nothing else; its argument is ignored.
    Repeated calls keep subtracting: on an empty container the length
    becomes negative. *)
Theorem pop_decrements c :
  INT_MIN < getSize c ≤ INT_MAX →
  (∀ data,
     pop data c
     = Returns (c.1, {| arr := arr c.2; capacity := getCapacity c;
                        current := getSize c - 1 |})) ∧
  (∀ ds : list T,
     INT_MIN ≤ getSize c - Z.of_nat (length ds) →
     run of_int (Pop <$> ds) c
     = Returns (c.1, {| arr := arr c.2; capacity := getCapacity c;
                        current := getSize c - Z.of_nat (length ds) |})).
Proof.
  unfold getSize, getCapacity. intros Hcur. split.
  - intros data. by apply pop_spec.
  - intros ds Hmin. apply run_pops; lia.
Qed.

(** C5 (amended).  After every finite sequence of public calls on a
    freshly constructed container that returns, [length ≤ capacity]
    holds; [0 ≤ length] holds as well when no [pop] of the sequence was
    issued on an empty container. *)
Theorem length_invariant h0 (ks : list (call T)) c0 c :
  vectorClass_new h0 = Returns c0 →
  run of_int ks c0 = Returns c →
  getSize c ≤ getCapacity c ∧
  (pops_guarded of_int ks c0 = true → 0 ≤ getSize c ≤ getCapacity c).
Proof.
  intros Hnew Hrun. split.
  - apply reachable_size_le_capacity. exists h0, ks. by rewrite Hnew.
  - intros Hguard. apply vectorClass_new_wf in Hnew as [Hwf0 _].
    destruct (wf_run ks c0 c Hwf0 Hguard Hrun) as [(_ & _ & Hle & _) Hpos].
    unfold getSize, getCapacity. lia.
Qed.

(** C6 (amended).  For every [N] with [1 ≤ N ≤ 2^30], [N] appends to a
    freshly constructed container return, and afterwards [getCapacity()]
    is the power of two reached by repeated doubling from 1 until [N]
    fits, which is the smallest power of two that is at least [N]. *)
Theorem capacity_after_appends (N : Z) (ds : list T) h0 :
  Z.of_nat (length ds) = N → 1 ≤ N ≤ 2 ^ 30 →
  ∃ c, (c0 ← vectorClass_new h0; run of_int (Push <$> ds) c0) = Returns c ∧
       getSize c = N ∧
       contents c = Some ds ∧
       getCapacity c = pow2_ceil N ∧
       ∃ k, 0 ≤ k ∧ getCapacity c = 2 ^ k ∧ N ≤ 2 ^ k ∧
            ∀ j, 0 ≤ j → N ≤ 2 ^ j → 2 ^ k ≤ 2 ^ j.
Proof.
  intros Hlen HN.
  destruct (vectorClass_new_wf h0 _ (vectorClass_new_spec h0)) as [Hwf0 Hxs0].
  rewrite vectorClass_new_spec, bind_Returns.
  destruct (run_pushes ds _ [] Hwf0 Hxs0) as (c & Hrun & Hwf & Hxs & Hcap & Hcur);
    [done | cbn [snd current]; lia |].
  cbn [snd current] in Hcur.
  exists c. unfold getSize, getCapacity. split_and!; [done | lia | done | |].
  - rewrite Hcap. f_equal. lia.
  - destruct (pow2_ceil_spec N) as (k & Hk & Hpow & Hle & Hmin).
    exists k. split_and!; [done | | done | by apply pow2_least].
    rewrite Hcap, <- Hpow. f_equal. lia.
Qed.

(** C7.  In every reachable configuration capacity is not zero, so the
    condition [index = capacity] of [push(v, index)] is true and the call
    is [push(v)], whatever the index: same outcome, same configuration. *)
Theorem push_index_is_push c data index :
  reachable of_int c →
  getCapacity c ≠ 0 ∧ push_index data index c = push data c.
Proof.
  intros ((_ & Hcap & _) & _)%reachable_inv.
  assert (getCapacity c ≠ 0) by (unfold getCapacity; lia).
  split; [done | by apply push_index_push].
Qed.


(** C9.  Five appends to a freshly constructed container return.  Read on
    entry to each append and again after each growth step, the capacity
    is 1, 1, 2, 2, 4, 4, 4, 8 across the calls, and [getCapacity()] is 8
    after the fifth append. *)
Theorem capacity_events_of_five_appends h0 (d1 d2 d3 d4 d5 : T) :
  (c ← vectorClass_new h0;
   capacity_events of_int [Push d1; Push d2; Push d3; Push d4; Push d5] c)
  = Returns [1; 1; 2; 2; 4; 4; 4; 8] ∧
  ∃ c, (c0 ← vectorClass_new h0;
        run of_int [Push d1; Push d2; Push d3; Push d4; Push d5] c0) = Returns c ∧
       getCapacity c = 8.
Proof.
  destruct (vectorClass_new_wf h0 _ (vectorClass_new_spec h0)) as [Hwf0 Hxs0].
  rewrite vectorClass_new_spec, !bind_Returns.
  change [Push d1; Push d2; Push d3; Push d4; Push d5]
    with (Push <$> [d1; d2; d3; d4; d5]).
  split.
  - by rewrite (capacity_events_pushes [d1; d2; d3; d4; d5] _ [] Hwf0 Hxs0).
  - destruct (run_pushes [d1; d2; d3; d4; d5] _ [] Hwf0 Hxs0)
      as (c & Hrun & _ & _ & Hcap & Hcur); [done | done |].
    exists c. split; [done|]. unfold getCapacity. by rewrite Hcap, Hcur.
Qed.


End Proofs.

(** * vectorClass<int>: concrete runs *)

Lemma objInt_constructed : objInt = Returns c_empty.
Proof. reflexivity. Qed.

Lemma objInt_after_run (ks : list (call Z)) :
  objInt_after ks = run id ks c_empty.
Proof. reflexivity. Qed.

Lemma c_empty_wf : wf c_empty ∧ contents c_empty = Some [].
Proof. apply (vectorClass_new_wf ∅). reflexivity. Qed.

Lemma objInt_after_two : objInt_after [Push 55; Push 50] = Returns c_two.
Proof. reflexivity. Qed.

(** Scenario 1 of the specification: after appending 55, 50, 510 the size
    is 3 and the capacity 4. *)
Lemma objInt_after_three :
  objInt_after [Push 55; Push 50; Push 510] = Returns c_three ∧
  getSize c_three = 3 ∧ getCapacity c_three = 4.
Proof. split_and!; reflexivity. Qed.

Lemma full_2_30_contents :
  contents full_2_30 = Some (replicate (Z.to_nat 1073741824) 0).
Proof.
  apply contents_Some. eexists. split; [apply lookup_singleton_eq|].
  unfold full_2_30. cbn [snd current].
  rewrite fmap_replicate, take_replicate, Nat.min_id. reflexivity.
Qed.

Lemma full_2_30_wf : wf full_2_30.
Proof.
  unfold wf, buffer_ok. rewrite full_2_30_contents.
  unfold full_2_30. cbn [fst snd arr capacity current]. unfold INT_MAX.
  split_and!; try lia; [|by eexists].
  eexists. split; [apply lookup_singleton_eq|].
  rewrite length_replicate. lia.
Qed.

(** ** Counterexamples and instances *)

(** [2^30] appends to [objInt] return, and leave a full container of
    [2^30] elements. *)
Lemma objInt_after_2_30_appends :
  ∃ c, objInt_after (Push <$> replicate (Z.to_nat 1073741824) 0) = Returns c ∧
       wf c ∧
       contents c = Some (replicate (Z.to_nat 1073741824) 0) ∧
       current c.2 = 1073741824 ∧ capacity c.2 = 1073741824.
Proof.
  destruct c_empty_wf as [Hwf0 Hxs0].
  destruct (run_pushes id (replicate (Z.to_nat 1073741824) 0) _ [] Hwf0 Hxs0)
    as (c & Hrun & Hwf & Hxs & Hcap & Hcur).
  { reflexivity. }
  { rewrite length_replicate. change (current c_empty.2) with 0.
    change (2 ^ 30) with 1073741824. lia. }
  rewrite length_replicate in Hcur. change (current c_empty.2) with 0 in Hcur.
  assert (Hcur' : current c.2 = 2 ^ 30)
    by (change (2 ^ 30) with 1073741824; lia).
  rewrite Hcur', (pow2_ceil_unique (2 ^ 30) 30) in Hcap; [|lia | lia | right; lia].
  change (2 ^ 30) with 1073741824 in Hcur', Hcap.
  rewrite app_nil_l in Hxs.
  exists c. rewrite objInt_after_run.
  split_and!; [exact Hrun | exact Hwf | exact Hxs | exact Hcur' | exact Hcap].
Qed.

(** C1, counterexample.  A full container of [2^30] elements satisfies the
    data-model invariants, yet [push] does not return on it: the size
    [2 * capacity] of the new buffer is not an int.  Such a container is
    what [2^30] appends to [objInt] produce. *)
Lemma push_full_2_30_overflows :
  (wf full_2_30 ∧
   getSize full_2_30 = getCapacity full_2_30 ∧
   push 0 full_2_30 = Fault SignedOverflow) ∧
  (∃ c, objInt_after (Push <$> replicate (Z.to_nat 1073741824) 0) = Returns c ∧
        wf c ∧ push 0 c = Fault SignedOverflow).
Proof.
  split.
  - split_and!; [apply full_2_30_wf | reflexivity |].
    apply push_overflow; unfold full_2_30; cbn [snd capacity current];
      [reflexivity | unfold INT_MAX; lia].
  - destruct objInt_after_2_30_appends as (c & Hrun & Hwf & _ & Hcur & Hcap).
    exists c. split_and!; [exact Hrun | exact Hwf |].
    apply push_overflow; [congruence | rewrite Hcap; unfold INT_MAX; lia].
Qed.

(** C1, instance: appending 510 to the full container holding 55, 50; the
    growth step runs. *)
Lemma push_appends_witness :
  ∃ c', push 510 c_two = Returns c' ∧
        getSize c' = 3 ∧ getCapacity c' = 4 ∧
        contents c' = Some [55; 50; 510].
Proof.
  destruct (push_appends c_two [55; 50] 510)
    as (c' & Hpush & Hsize & Hxs & _ & _ & _ & _ & Hgrow).
  - unfold wf, buffer_ok. split_and!; try (vm_compute; congruence).
    + eexists. split; reflexivity.
    + exists [55; 50]. reflexivity.
  - reflexivity.
  - intros _. vm_compute. congruence.
  - destruct Hgrow as [Hcap _]; [reflexivity|].
    exists c'. split_and!; assumption.
Defined.

(** C2, counterexample.  On the container holding 55, 50, 510, [get(2)]
    returns -1 and not the element 510, and [get(10)] returns -1 instead
    of failing. *)
Lemma get_returns_sentinel_not_element :
  contents c_three = Some [55; 50; 510] ∧
  get id 2 c_three
  = Returns (c_three, [Str "At index "; Int 2; Str " : "; Elem 510; Endl], -1) ∧
  (∀ out, get id 2 c_three ≠ Returns (c_three, out, 510)) ∧
  get id 10 c_three = Returns (c_three, [], -1).
Proof.
  assert (Hget : get id 2 c_three
                 = Returns (c_three,
                            [Str "At index "; Int 2; Str " : "; Elem 510; Endl], -1))
    by reflexivity.
  split_and!; [reflexivity | exact Hget | | reflexivity].
  intros out. rewrite Hget. intros [=].
Qed.

(** C2, instance: [get(2)] on the container holding 55, 50, 510. *)
Lemma get_prints_and_returns_sentinel_witness :
  get id 2 c_three
  = Returns (c_three, [Str "At index "; Int 2; Str " : "; Elem 510; Endl], -1).
Proof.
  destruct (get_prints_and_returns_sentinel id c_three [55; 50; 510] 2)
    as [Hin _].
  - unfold wf, buffer_ok. split_and!; try (vm_compute; congruence).
    + eexists. split; reflexivity.
    + exists [55; 50; 510]. reflexivity.
  - reflexivity.
  - destruct Hin as (x & Hx & Hget); [vm_compute; split; congruence|].
    injection Hx as <-. exact Hget.
Defined.

(** C3, the failing input.  The comment on [push(T, int)] announces a push
    to a particular index and its [else] branch is [arr[index] = data],
    but the condition [index = capacity] is an assignment, so that branch
    never runs: on the container holding 55, 50 the call [push(99, 0)]
    does not overwrite slot 0 and keep the length 2; it appends, and the
    container holds 55, 50, 99 with length 3. *)
Lemma push_index_appends_instead :
  contents c_two = Some [55; 50] ∧
  ∃ c', push_index 99 0 c_two = Returns c' ∧
        getSize c' = 3 ∧
        contents c' = Some [55; 50; 99] ∧
        contents c' ≠ Some [99; 50].
Proof.
  split; [reflexivity|]. eexists. split_and!; [reflexivity.. |].
  intros [=].
Qed.

(** C4, counterexample.  [pop] on the freshly constructed container is
    not a no-op: it returns with length -1. *)
Lemma pop_on_empty_underflows :
  getSize c_empty = 0 ∧
  ∃ c', pop 0 c_empty = Returns c' ∧ getSize c' = -1.
Proof. split; [reflexivity|]. eexists. split; reflexivity. Qed.

(** C4, instance: [pop] on the container holding 55, 50, 510. *)
Lemma pop_decrements_witness :
  ∃ c', pop 0 c_three = Returns c' ∧ getSize c' = 2 ∧ getCapacity c' = 4.
Proof.
  destruct (pop_decrements id c_three) as [Hpop _].
  - vm_compute. split; congruence.
  - eexists. split; [apply (Hpop 0) | split; reflexivity].
Defined.

(** C5, counterexample.  Construction followed by one [pop] reaches a
    configuration whose length is negative, and the next [push] writes
    before the buffer. *)
Lemma pop_breaks_length_invariant :
  ∃ c, objInt_after [Pop 0] = Returns c ∧
       reachable id c ∧
       getSize c = -1 ∧ ¬ (0 ≤ getSize c ≤ getCapacity c) ∧
       push 3 c = Fault OutOfBounds.
Proof.
  eexists. split; [reflexivity|]. split_and!.
  - exists ∅, [Pop 0]. reflexivity.
  - reflexivity.
  - vm_compute. intros [H _]. by apply H.
  - reflexivity.
Qed.

(** C5, instance: the calls of [main] followed by a [pop]. *)
Lemma length_invariant_witness :
  ∃ c, objInt_after [Push 55; Push 50; Push 510; Get 2; GetSize; Print; Pop 0]
       = Returns c ∧
       0 ≤ getSize c ≤ getCapacity c.
Proof.
  eexists. split; [reflexivity|].
  eapply (length_invariant id ∅
            [Push 55; Push 50; Push 510; Get 2; GetSize; Print; Pop 0]).
  - reflexivity.
  - reflexivity.
  - reflexivity.
Defined.

(** C6, counterexample.  [N = 2^30 + 1] appends to a freshly constructed
    container do not return: the first [2^30] fill a buffer of [2^30]
    slots, and the growth step of the next one overflows. *)
Lemma appends_beyond_2_30_overflow :
  Z.of_nat (length (replicate (Z.to_nat 1073741824) 0 ++ [0])) = 2 ^ 30 + 1 ∧
  objInt_after (Push <$> replicate (Z.to_nat 1073741824) 0 ++ [0])
  = Fault SignedOverflow.
Proof.
  split.
  { rewrite length_app, length_replicate. cbn [length].
    change (2 ^ 30) with 1073741824. lia. }
  destruct objInt_after_2_30_appends as (c & Hrun & _ & _ & Hcur & Hcap).
  rewrite objInt_after_run in Hrun.
  rewrite objInt_after_run, fmap_app, run_app, Hrun, bind_Returns.
  change (Push <$> [0]) with [Push (T:=Z) 0]. cbn [run exec].
  rewrite push_overflow; [reflexivity | congruence |].
  rewrite Hcap. unfold INT_MAX. lia.
Qed.

(** C6, instance: three appends. *)
Lemma capacity_after_appends_witness :
  ∃ c, objInt_after [Push 55; Push 50; Push 510] = Returns c ∧
       getSize c = 3 ∧ getCapacity c = pow2_ceil 3 ∧ pow2_ceil 3 = 4.
Proof.
  destruct (capacity_after_appends id 3 [55; 50; 510] ∅)
    as (c & Hrun & Hsize & _ & Hcap & _).
  - reflexivity.
  - vm_compute. split; congruence.
  - exists c. split_and!; [exact Hrun | exact Hsize | exact Hcap | reflexivity].
Defined.

(** C7, instance: on the container holding 55, 50, 510, [push(99, 0)] is
    [push(99)]. *)
Lemma push_index_is_push_witness :
  getCapacity c_three ≠ 0 ∧ push_index 99 0 c_three = push 99 c_three.
Proof.
  apply (push_index_is_push id c_three 99 0).
  exists ∅, [Push 55; Push 50; Push 510]. reflexivity.
Defined.



(** * Further properties of the class *)

Section Composition.

Context {T : Type} (of_int : Z → T).

Local Abbreviation block := (list (option T)).
Local Abbreviation heap := (gmap loc block).
Local Abbreviation config := (heap * vectorClass)%type.

Implicit Types (h : heap) (v : vectorClass) (c : config) (b : block).
Implicit Types (xs ds : list T) (data : T) (index i : Z) (p : loc).

Local Ltac unchanged Hk :=
  match type of Hk with
  | exec _ ?k ?c = Returns ?c' => rewrite (exec_unchanged _ k c c' I Hk)
  end.

(** ** print *)

Lemma print_loop_spec c xs :
  contents c = Some xs →
  ∀ (n i : nat),
    (i + n ≤ length xs)%nat →
    print_loop n (Z.of_nat i) c
    = Returns (take n (drop i xs) ≫= λ x, [Elem x; Str " ,"]).
Proof.
  intros Hxs n. induction n as [|n IH]; intros i Hin; [done|].
  destruct (lookup_lt_is_Some_2 xs i) as [x Hx]; [lia|].
  cbn [print_loop].
  rewrite (load_contents c xs (Z.of_nat i) x) by (rewrite ?Nat2Z.id; done || lia).
  rewrite bind_Returns.
  replace (Z.of_nat i + 1) with (Z.of_nat (S i)) by lia.
  rewrite IH by lia. rewrite bind_Returns.
  by rewrite (drop_S xs x i Hx).
Qed.

Lemma print_spec c xs :
  buffer_ok c → contents c = Some xs → print c = Returns (printed xs).
Proof.
  intros Hok Hxs. pose proof (contents_length c xs Hok Hxs) as Hlen.
  unfold print. change 0 with (Z.of_nat 0).
  rewrite (print_loop_spec c xs Hxs (Z.to_nat (current c.2)) 0) by lia.
  rewrite bind_Returns, drop_0, take_ge by lia. done.
Qed.

(** X1.  In every reachable configuration [print] returns: it writes the
    live elements in index order, each followed by [" ,"], and then the
    end of line; when the length is zero or negative it writes the end of
    line only. *)
Theorem print_writes_live_elements c :
  reachable of_int c →
  ∃ xs, contents c = Some xs ∧
        Z.of_nat (length xs) = Z.max 0 (getSize c) ∧
        print c = Returns (printed xs).
Proof.
  intros (Hok & _)%reachable_inv.
  pose proof Hok as (_ & _ & _ & [xs Hxs]).
  exists xs. split_and!; [done | by apply contents_length | by apply print_spec].
Qed.

(** ** Runs of appends on any container *)

Lemma push_current c data c' :
  push data c = Returns c' → current c'.2 = current c.2 + 1.
Proof.
  unfold push, int_add.
  intros ([h v] & Hg & (h' & _ & (cur & [-> _]%to_int_Returns & [= <-])%bind_Returns_inv
         )%bind_Returns_inv)%bind_Returns_inv.
  cbn [snd current]. f_equal.
  destruct (capacity c.2 =? current c.2).
  - apply grow_capacity in Hg as [_ Hg]. exact Hg.
  - by injection Hg as ->.
Qed.

Lemma run_pushes_wf ds :
  ∀ c xs,
    wf c → contents c = Some xs →
    current c.2 + Z.of_nat (length ds) ≤ 2 ^ 30 →
    ∃ c', run of_int (Push <$> ds) c = Returns c' ∧
          wf c' ∧
          contents c' = Some (xs ++ ds) ∧
          current c'.2 = current c.2 + Z.of_nat (length ds) ∧
          capacity c.2 ≤ capacity c'.2.
Proof.
  induction ds as [|d ds IH]; intros c xs Hwf Hxs Hlen.
  - exists c. rewrite app_nil_r. cbn [length]. split_and!; auto with lia.
  - change (length (d :: ds)) with (S (length ds)) in *.
    destruct (push_wf c xs d) as (c1 & Hpush & Hwf1 & Hxs1 & Hcur1 & Hcap1);
      [done | done | |].
    { intros Hfull. change (2 ^ 30) with 1073741824 in Hlen.
      unfold INT_MAX. lia. }
    destruct (IH c1 (xs ++ [d])) as (c' & Hrun & Hwf' & Hxs' & Hcur' & Hcap');
      [done | done | lia |].
    exists c'. rewrite fmap_cons. cbn [run exec]. rewrite Hpush, bind_Returns.
    split_and!; [done | done | | lia |].
    + by rewrite Hxs', <- app_assoc.
    + destruct Hwf as [(_ & ? & _) _].
      destruct (capacity c.2 =? current c.2); lia.
Qed.

(** X2.  Appending the elements [ds] (at most [2^30] of them) to a freshly
    constructed container returns, whatever growth steps it takes;
    afterwards the length is the number of elements, [print] writes them
    in the order they were appended, and [get(i)] writes the element
    appended in position [i]. *)
Theorem appended_elements_read_back h0 ds :
  Z.of_nat (length ds) ≤ 2 ^ 30 →
  ∃ c, (c0 ← vectorClass_new h0; run of_int (Push <$> ds) c0) = Returns c ∧
       getSize c = Z.of_nat (length ds) ∧
       print c = Returns (printed ds) ∧
       ∀ (i : nat) x,
         ds !! i = Some x →
         get of_int (Z.of_nat i) c = Returns (c, got (Z.of_nat i) x, of_int (-1)).
Proof.
  intros Hlen.
  destruct (vectorClass_new_wf h0 _ (vectorClass_new_spec h0)) as [Hwf0 Hxs0].
  rewrite vectorClass_new_spec, bind_Returns.
  destruct (run_pushes_wf ds _ [] Hwf0 Hxs0) as (c & Hrun & Hwf & Hxs & Hcur & _);
    [cbn [snd current]; lia |].
  cbn [snd current] in Hcur. rewrite app_nil_l in Hxs.
  exists c. unfold getSize. split_and!; [done | lia | |].
  - apply print_spec; [apply Hwf | done].
  - intros i x Hx. apply lookup_lt_Some in Hx as Hi.
    apply (get_live of_int c ds); [done | lia | by rewrite Nat2Z.id].
Qed.

(** X3.  On every container state, appending some elements and then
    calling [pop] as many times gives back the length and the live
    elements the container had.  The capacity is not given back: it is at
    least what it was, and larger when the appends did not fit. *)
Theorem pushes_then_pops_restore c xs ds (ds' : list T) :
  wf c → contents c = Some xs →
  getSize c + Z.of_nat (length ds) ≤ 2 ^ 30 →
  length ds' = length ds →
  ∃ c', run of_int ((Push <$> ds) ++ (Pop <$> ds')) c = Returns c' ∧
        getSize c' = getSize c ∧
        contents c' = Some xs ∧
        getCapacity c ≤ getCapacity c' ∧
        (getCapacity c < getSize c + Z.of_nat (length ds) →
         getCapacity c < getCapacity c').
Proof.
  unfold getSize, getCapacity. intros Hwf Hxs Hlen Hsame.
  pose proof (contents_length c xs (proj1 Hwf) Hxs) as Hlenxs.
  destruct (run_pushes_wf ds c xs Hwf Hxs Hlen)
    as (c1 & Hrun & [Hok1 Hpos1] & Hxs1 & Hcur1 & Hcap1).
  destruct Hwf as [Hok Hpos].
  eexists. split.
  { rewrite run_app, Hrun, bind_Returns. apply run_pops.
    - unfold INT_MIN. lia.
    - destruct Hok1 as (_ & ? & ? & _). lia. }
  cbn [fst snd arr capacity current]. rewrite Hsame.
  split_and!; [lia | | lia |].
  - apply contents_Some in Hxs1 as (b & Hb & Htake).
    apply contents_Some. cbn [fst snd arr current]. exists b. split; [done|].
    replace (Z.to_nat (current c1.2 - Z.of_nat (length ds)))
      with (length xs) by lia.
    apply (f_equal (take (length xs))) in Htake.
    rewrite take_take, fmap_app, take_app_length' in Htake
      by (by rewrite length_fmap).
    rewrite <- Htake. f_equal. lia.
  - destruct Hok1 as (_ & _ & ? & _). lia.
Qed.

(** X4.  On a container that is not empty, [pop] followed by [push(y)]
    replaces the last element by [y] in place: the other elements, the
    length, the capacity and the buffer address stay, and no other block
    of the heap changes. *)
Theorem pop_push_replaces_last c xs (x d y : T) :
  wf c → contents c = Some (xs ++ [x]) →
  ∃ c', run of_int [Pop d; Push y] c = Returns c' ∧
        contents c' = Some (xs ++ [y]) ∧
        getSize c' = getSize c ∧
        getCapacity c' = getCapacity c ∧
        arr c'.2 = arr c.2 ∧
        ∀ p, p ≠ arr c.2 → c'.1 !! p = c.1 !! p.
Proof.
  unfold getSize, getCapacity. intros Hwf Hxs.
  pose proof (contents_length c _ (proj1 Hwf) Hxs) as Hlen.
  rewrite length_app in Hlen. cbn [length] in Hlen.
  destruct Hwf as [Hok Hpos].
  pose proof Hok as ((b & Hb & Hlenb) & Hcap & Hle & _).
  assert (Hpop : pop d c
                 = Returns (c.1, {| arr := arr c.2; capacity := capacity c.2;
                                    current := current c.2 - 1 |})).
  { apply pop_spec. unfold INT_MIN. lia. }
  set (c1 := (c.1, {| arr := arr c.2; capacity := capacity c.2;
                      current := current c.2 - 1 |})) in *.
  assert (Hxs1 : contents c1 = Some xs).
  { apply contents_Some in Hxs as (b' & Hb' & Htake).
    apply contents_Some. exists b'. split; [done|]. unfold c1. cbn [snd current].
    apply (f_equal (take (length xs))) in Htake.
    rewrite take_take, fmap_app, take_app_length' in Htake
      by (by rewrite length_fmap).
    rewrite <- Htake. f_equal. lia. }
  assert (Hwf1 : wf c1).
  { unfold wf, buffer_ok. rewrite Hxs1. unfold c1.
    cbn [fst snd arr capacity current]. split_and!; eauto with lia. }
  destruct (push_wf c1 xs y Hwf1 Hxs1)
    as (c' & Hpush & _ & Hxs' & Hcur' & Hcap').
  { unfold c1. cbn [snd capacity current]. lia. }
  destruct (push_heap c1 y c' Hwf1 Hpush) as [[Harr Hother] _].
  { unfold c1. cbn [snd capacity current]. lia. }
  unfold c1 in Hcur', Hcap', Harr, Hother.
  cbn [fst snd arr capacity current] in Hcur', Hcap', Harr, Hother.
  exists c'. cbn [run exec]. rewrite Hpop, bind_Returns, Hpush.
  split_and!; [done | done | lia | | done | done].
  rewrite Hcap'. destruct (Z.eqb_spec (capacity c.2) (current c.2 - 1)); [lia | done].
Qed.

(** ** Capacity along a run *)

(** X5.  No call gives capacity back: along every run of public calls the
    capacity is multiplied by a power of two, at most one doubling per
    call, so from a reachable configuration it never decreases. *)
Theorem capacity_never_shrinks (ks : list (call T)) c c' :
  reachable of_int c →
  run of_int ks c = Returns c' →
  getCapacity c ≤ getCapacity c' ∧
  ∃ j, 0 ≤ j ≤ Z.of_nat (length ks) ∧ getCapacity c' = 2 ^ j * getCapacity c.
Proof.
  unfold getCapacity. intros ((_ & Hcap & _) & _)%reachable_inv Hrun.
  assert (Hpow : ∃ j, 0 ≤ j ≤ Z.of_nat (length ks) ∧
                      capacity c'.2 = 2 ^ j * capacity c.2).
  { clear Hcap. revert c Hrun.
    induction ks as [|k ks IH]; intros c; cbn [run length].
    - intros [= <-]. exists 0. lia.
    - intros (c1 & Hk & Hrun)%bind_Returns_inv.
      destruct (IH c1 Hrun) as (j & Hj & ->).
      destruct (exec_capacity of_int k c c1 Hk) as [->|(_ & _ & ->)].
      + exists j. lia.
      + exists (j + 1). split; [lia|]. rewrite Z.pow_add_r by lia. lia. }
  split; [|done]. destruct Hpow as (j & Hj & ->).
  assert (1 ≤ 2 ^ j) by (apply (Z.pow_le_mono_r 2 0 j); lia). nia.
Qed.

(** ** Ownership of the buffer *)

Lemma owns_new h0 c0 : vectorClass_new h0 = Returns c0 → owns h0 c0.
Proof.
  rewrite vectorClass_new_spec. intros [= <-]. unfold owns. cbn [fst snd arr].
  split_and!.
  - apply fresh_not_allocated.
  - by rewrite lookup_insert_eq.
  - rewrite delete_insert_eq. apply delete_id, fresh_not_allocated.
Qed.

Lemma owns_push h0 c data c' :
  wf c → owns h0 c → push data c = Returns c' → owns h0 c'.
Proof.
  intros Hwf (Hfree & Halloc & Hrest) Hpush.
  pose proof (wf_push c data c' Hwf Hpush) as [((b' & Hb' & _) & _) _].
  destruct (push_heap c data c' Hwf Hpush) as [Hroom Hfull].
  destruct (decide (capacity c.2 = current c.2)) as [Heq|Hne].
  - destruct (Hfull Heq) as (Hnew & _ & Hold & Hother).
    assert (arr c'.2 ≠ arr c.2).
    { intros Hp. rewrite Hp in Hnew. rewrite Hnew in Halloc.
      by apply is_Some_None in Halloc. }
    unfold owns. split_and!.
    + by rewrite <- Hrest, lookup_delete_ne.
    + by rewrite Hb'.
    + rewrite <- Hrest. apply map_eq. intros p.
      destruct (decide (p = arr c'.2)) as [->|Hp'].
      { by rewrite lookup_delete_eq, lookup_delete_ne. }
      rewrite lookup_delete_ne by done.
      destruct (decide (p = arr c.2)) as [->|Hp].
      { by rewrite lookup_delete_eq. }
      rewrite lookup_delete_ne by done. by apply Hother.
  - destruct (Hroom Hne) as (Harr & Hother).
    unfold owns. rewrite Harr. split_and!.
    + done.
    + by rewrite <- Harr, Hb'.
    + rewrite <- Hrest. apply map_eq. intros p.
      destruct (decide (p = arr c.2)) as [->|Hp].
      { by rewrite !lookup_delete_eq. }
      rewrite !lookup_delete_ne by done. by apply Hother.
Qed.

Lemma owns_exec h0 (k : call T) c c' :
  inv c → owns h0 c → exec of_int k c = Returns c' → owns h0 c'.
Proof.
  intros Hinv Hown Hk.
  assert (Hpush : ∀ data, push data c = Returns c' → owns h0 c').
  { intros data Hpush. apply (owns_push h0 c data); [|done..].
    split; [apply Hinv|].
    destruct (Z.lt_ge_cases (current c.2) 0) as [Hneg|]; [|done].
    rewrite push_negative in Hpush by (done || apply Hinv). discriminate. }
  destruct k as [data|data index|data| | | |index];
    try (by unchanged Hk).
  - by apply (Hpush data).
  - cbn [exec] in Hk. rewrite push_index_push in Hk; [by apply (Hpush data)|].
    destruct Hinv as ((_ & Hcap & _) & _). lia.
  - cbn [exec] in Hk. by apply pop_Returns in Hk as [-> _].
Qed.

Lemma owns_run h0 (ks : list (call T)) :
  ∀ c c', inv c → owns h0 c → run of_int ks c = Returns c' → owns h0 c'.
Proof.
  induction ks as [|k ks IH]; intros c c' Hinv Hown; cbn [run].
  - by intros [= <-].
  - intros (c1 & Hk & Hrun)%bind_Returns_inv.
    eauto using inv_exec, owns_exec.
Qed.

Lemma owns_delete h0 c : owns h0 c → vectorClass_delete c = Returns h0.
Proof.
  intros (_ & [b Hb] & Hrest). unfold vectorClass_delete, delete_array.
  by rewrite Hb, Hrest.
Qed.

(** X6.  After every run of public calls on a container constructed in
    the heap [h0], the heap is [h0] plus exactly one block, the buffer:
    growth steps leave no block behind and no call touches a block of
    [h0].  The destructor then returns and leaves exactly [h0]. *)
Theorem buffer_is_the_only_block h0 (ks : list (call T)) c0 c :
  vectorClass_new h0 = Returns c0 →
  run of_int ks c0 = Returns c →
  h0 !! arr c.2 = None ∧
  (∃ b, c.1 = <[arr c.2 := b]> h0 ∧ Z.of_nat (length b) = getCapacity c) ∧
  (∀ p b, h0 !! p = Some b → c.1 !! p = Some b) ∧
  vectorClass_delete c = Returns h0.
Proof.
  intros Hnew Hrun.
  assert (Hinv0 : inv c0).
  { apply (reachable_inv of_int). exists h0, []. by rewrite Hnew. }
  pose proof (inv_run of_int ks c0 c Hinv0 Hrun) as (((b & Hb & Hlen) & _) & _).
  pose proof (owns_run h0 ks c0 c Hinv0 (owns_new h0 c0 Hnew) Hrun) as Hown.
  pose proof Hown as (Hfree & _ & Hrest).
  split_and!; [done | | | by apply owns_delete].
  - exists b. split; [|done].
    by rewrite <- Hrest, insert_delete_eq, insert_id.
  - intros p bp Hp. rewrite <- Hrest in Hp.
    apply lookup_delete_Some in Hp as [_ Hp]. done.
Qed.

(** ** The length along a run *)

Lemma exec_current (k : call T) c c' :
  inv c → exec of_int k c = Returns c' →
  current c'.2 = current c.2 + size_delta k.
Proof.
  intros Hinv Hk.
  destruct k as [data|data index|data| | | |index];
    try (unchanged Hk; cbn [size_delta]; lia).
  - by apply (push_current c data).
  - cbn [exec] in Hk. rewrite push_index_push in Hk; [by apply (push_current c data)|].
    destruct Hinv as ((_ & Hcap & _) & _). lia.
  - cbn [exec] in Hk. apply pop_Returns in Hk as [-> _]. cbn. lia.
Qed.

(** X7.  After every run of public calls on a freshly constructed
    container that returns, [getSize()] is the number of appends (through
    either [push]) minus the number of [pop] calls; nothing else changes
    the length. *)
Theorem size_counts_appends_and_pops h0 (ks : list (call T)) c0 c :
  vectorClass_new h0 = Returns c0 →
  run of_int ks c0 = Returns c →
  getSize c = foldr Z.add 0 (size_delta <$> ks).
Proof.
  unfold getSize. intros Hnew Hrun.
  assert (Hinv0 : inv c0).
  { apply (reachable_inv of_int). exists h0, []. by rewrite Hnew. }
  assert (Hcur0 : current c0.2 = 0).
  { rewrite vectorClass_new_spec in Hnew. by injection Hnew as <-. }
  enough (current c.2 = current c0.2 + foldr Z.add 0 (size_delta <$> ks)) by lia.
  clear Hnew Hcur0. revert c0 Hinv0 Hrun.
  induction ks as [|k ks IH]; intros c0 Hinv0; cbn [run].
  - intros [= <-]. cbn. lia.
  - intros (c1 & Hk & Hrun)%bind_Returns_inv.
    rewrite (IH c1 (inv_exec of_int k c0 c1 Hinv0 Hk) Hrun).
    rewrite (exec_current k c0 c1 Hinv0 Hk), fmap_cons. cbn [foldr]. lia.
Qed.

(** ** The cost of growing *)

(** The counter does not change what the code does: each counting
    function returns what the plain one returns, and the count is the
    number of iterations of the copy loop. *)
Lemma copy_loop_counting_spec (n : nat) :
  ∀ i (src dst : loc) h,
    copy_loop_counting n i src dst h
    = (h' ← copy_loop n i src dst h; Returns (h', Z.of_nat n)).
Proof.
  induction n as [|n IH]; intros i src dst h; [done|].
  cbn [copy_loop_counting copy_loop].
  destruct (load h src i) as [x|f]; [|done]. rewrite !bind_Returns.
  destruct (store h dst i x) as [h'|f]; [|done]. rewrite !bind_Returns, IH.
  destruct (copy_loop n (i + 1) src dst h') as [h''|f]; [|done].
  rewrite !bind_Returns. cbv beta iota. do 2 f_equal. lia.
Qed.

Lemma grow_counting_spec c :
  grow_counting c = (c' ← grow c; Returns (c', Z.max 0 (capacity c.2))).
Proof.
  destruct c as [h v]. unfold grow_counting, grow. cbn [snd].
  destruct (int_mul 2 (capacity v)) as [n|f]; [|done]. rewrite !bind_Returns.
  destruct (new_array n h) as [[tmep h1]|f]; [|done].
  rewrite !bind_Returns. cbv beta iota. rewrite copy_loop_counting_spec.
  destruct (copy_loop (Z.to_nat (capacity v)) 0 (arr v) tmep h1) as [h2|f]; [|done].
  rewrite !bind_Returns. cbv beta iota.
  destruct (delete_array (arr v) h2) as [h3|f]; [|done]. rewrite !bind_Returns.
  destruct (int_mul (capacity v) 2) as [cap|f]; [|done]. rewrite !bind_Returns.
  do 2 f_equal. lia.
Qed.

Lemma push_counting_spec data c :
  push_counting data c
  = (c' ← push data c;
     Returns (c', if capacity c.2 =? current c.2
                  then Z.max 0 (capacity c.2) else 0)).
Proof.
  unfold push_counting, push. destruct (capacity c.2 =? current c.2).
  - rewrite grow_counting_spec. destruct (grow c) as [[h v]|f]; [|done].
    rewrite !bind_Returns. cbv beta iota.
    destruct (store h (arr v) (current v) data) as [h'|f]; [|done].
    rewrite !bind_Returns.
    by destruct (int_add (current v) 1) as [cur|f].
  - destruct c as [h v]. rewrite !bind_Returns. cbv beta iota. cbn [snd].
    destruct (store h (arr v) (current v) data) as [h'|f]; [|done].
    rewrite !bind_Returns.
    by destruct (int_add (current v) 1) as [cur|f].
Qed.

Lemma copy_steps_pushes ds :
  ∀ c xs,
    wf c → contents c = Some xs →
    capacity c.2 = pow2_ceil (current c.2) →
    current c.2 + Z.of_nat (length ds) ≤ 2 ^ 30 →
    copy_steps_of_pushes ds c
    = Returns (pow2_ceil (current c.2 + Z.of_nat (length ds))
               - pow2_ceil (current c.2)).
Proof.
  induction ds as [|d ds IH]; intros c xs Hwf Hxs Hcap Hlen.
  - cbn. f_equal. rewrite Z.add_0_r. lia.
  - change (length (d :: ds)) with (S (length ds)) in *.
    destruct (push_wf c xs d) as (c1 & Hpush & Hwf1 & Hxs1 & Hcur1 & Hcap1);
      [done | done | |].
    { intros Hfull. change (2 ^ 30) with 1073741824 in Hlen.
      unfold INT_MAX. lia. }
    assert (Hsucc : pow2_ceil (current c.2 + 1)
                    = (if capacity c.2 =? current c.2
                       then 2 * capacity c.2 else capacity c.2)).
    { rewrite pow2_ceil_succ by (destruct Hwf; lia). by rewrite <- Hcap. }
    cbn [copy_steps_of_pushes].
    rewrite push_counting_spec, Hpush, !bind_Returns. cbv beta iota.
    rewrite (IH c1 (xs ++ [d])); [| done | done | | lia].
    + rewrite bind_Returns. f_equal. rewrite Hcur1, Hsucc.
      replace (current c.2 + 1 + Z.of_nat (length ds))
        with (current c.2 + Z.of_nat (S (length ds))) by lia.
      destruct Hwf as [(_ & ? & _) _].
      destruct (capacity c.2 =? current c.2); lia.
    + by rewrite Hcap1, Hcur1, Hsucc.
Qed.

(** X9.  Growing by doubling keeps copying linear.  [push] with a counter
    on the assignment [tmep[i] = arr[i]] of its copy loop returns what
    [push] returns; over [N] appends to a freshly constructed container
    ([1 ≤ N ≤ 2^30]) the counter reaches [P - 1], where [P] is the
    smallest power of two that is at least [N]; that is fewer than
    [2 * N - 1]. *)
Theorem appends_copy_linearly h0 ds :
  1 ≤ Z.of_nat (length ds) ≤ 2 ^ 30 →
  (∀ data c, ('(c', _) ← push_counting data c; Returns c') = push data c) ∧
  (c0 ← vectorClass_new h0; copy_steps_of_pushes ds c0)
  = Returns (pow2_ceil (Z.of_nat (length ds)) - 1) ∧
  pow2_ceil (Z.of_nat (length ds)) - 1 < 2 * Z.of_nat (length ds) - 1.
Proof.
  intros Hlen.
  destruct (vectorClass_new_wf h0 _ (vectorClass_new_spec h0)) as [Hwf0 Hxs0].
  rewrite vectorClass_new_spec, bind_Returns. split_and!.
  - intros data c. rewrite push_counting_spec.
    by destruct (push data c) as [c'|f].
  - rewrite (copy_steps_pushes ds _ [] Hwf0 Hxs0); [done | done |].
    cbn [snd current]. lia.
  - destruct (pow2_ceil_spec (Z.of_nat (length ds))) as (k & Hk & -> & _ & [->|Hlt]);
      [cbn | ]; lia.
Qed.

(** ** Two containers in one heap *)

Lemma contents_same_block h h' v :
  h' !! arr v = h !! arr v → contents (h', v) = contents (h, v).
Proof. intros Hb. unfold contents. cbn [fst snd]. by rewrite Hb. Qed.

Lemma wf_same_block h h' v :
  h' !! arr v = h !! arr v → wf (h, v) → wf (h', v).
Proof.
  intros Hb. unfold wf, buffer_ok.
  rewrite (contents_same_block h h' v Hb). cbn [fst snd]. by rewrite Hb.
Qed.

(** An append to one container leaves a block [q] beside its buffer alone,
    and frees what it replaces. *)
Lemma push_beside h v xs data (q : loc) (bq : block) :
  wf (h, v) → contents (h, v) = Some xs →
  current v + 1 ≤ 2 ^ 30 →
  h !! q = Some bq → q ≠ arr v →
  ∃ h' v', push data (h, v) = Returns (h', v') ∧
           wf (h', v') ∧
           contents (h', v') = Some (xs ++ [data]) ∧
           h' !! q = Some bq ∧ q ≠ arr v' ∧
           delete (arr v') h' = delete (arr v) h.
Proof.
  intros Hwf Hxs Hfit Hq Hne.
  destruct (push_wf (h, v) xs data Hwf Hxs) as ([h' v'] & Hpush & Hwf' & Hxs' & _).
  { cbn [snd capacity current]. intros Hfull.
    change (2 ^ 30) with 1073741824 in Hfit. unfold INT_MAX. lia. }
  assert (Hown : owns (delete (arr v) h) (h, v)).
  { destruct Hwf as [((b & Hb & _) & _) _]. unfold owns. cbn [fst snd] in *.
    split_and!; [apply lookup_delete_eq | by rewrite Hb | done]. }
  pose proof (owns_push _ _ data _ Hwf Hown Hpush) as (Hfree & _ & Hrest).
  cbn [fst snd] in Hfree, Hrest.
  assert (Hq' : delete (arr v') h' !! q = Some bq)
    by (by rewrite Hrest, lookup_delete_ne).
  apply lookup_delete_Some in Hq' as [Hne' Hq'].
  exists h', v'. split_and!; done.
Qed.

End Composition.

(** ** The program [main] *)

(** X10.  [main] returns 0 from every initial heap.  It writes
    [At index 2 : 510], [3 Size ], [55 ,50 ,510 ,] and [A ,B ,C ,], each
    followed by the end of line: [print] puts the separator after every
    element, the last one included.  Both buffers are freed: the heap is
    left as it was found. *)
Theorem main_output_and_heap (h : gmap loc (list (option elem))) :
  main h
  = Returns (got 2 (EInt 510) ++
             [Int 3; Str " Size "; Endl] ++
             printed [EInt 55; EInt 50; EInt 510] ++
             printed [EChar "A"; EChar "B"; EChar "C"],
             0, h).
Proof.
  unfold main.
  (* the two constructors *)
  destruct (vectorClass_new_wf h _ (vectorClass_new_spec h)) as [HwfI0 HxsI0].
  rewrite (vectorClass_new_spec h), bind_Returns. cbv beta iota.
  set (pI := fresh (dom h)) in *.
  set (h1 := <[pI := [None]]> h) in *.
  destruct (vectorClass_new_wf h1 _ (vectorClass_new_spec h1)) as [HwfC HxsC].
  rewrite (vectorClass_new_spec h1), bind_Returns. cbv beta iota.
  set (pC := fresh (dom h1)) in *.
  set (h2 := <[pC := [None]]> h1) in *.
  set (vI := {| arr := pI; capacity := 1; current := 0 |}) in *.
  set (vC := {| arr := pC; capacity := 1; current := 0 |}) in *.
  assert (HpI : h !! pI = None) by apply fresh_not_allocated.
  assert (HpC : h1 !! pC = None) by apply fresh_not_allocated.
  assert (Hne : pI ≠ pC).
  { intros Heq. rewrite <- Heq in HpC. unfold h1 in HpC.
    by rewrite lookup_insert_eq in HpC. }
  assert (HbC : h2 !! arr vC = Some [None]) by apply lookup_insert_eq.
  assert (HwfI : wf (h2, vI)).
  { apply (wf_same_block h1); [|done]. unfold h2. by rewrite lookup_insert_ne. }
  assert (HxsI : contents (h2, vI) = Some []).
  { rewrite <- HxsI0. apply contents_same_block. unfold h2.
    by rewrite lookup_insert_ne. }
  assert (Hframe : delete (arr vC) (delete (arr vI) h2) = h).
  { assert (HpC' : h !! pC = None).
    { rewrite <- HpC. unfold h1. by rewrite lookup_insert_ne. }
    unfold h2, vI, vC. cbn [arr]. rewrite delete_insert_ne by done.
    unfold h1. rewrite (delete_insert_id h pI) by done.
    by apply delete_insert_id. }
  assert (HneI : arr vC ≠ arr vI) by (unfold vI, vC; cbn [arr]; congruence).
  clearbody vI vC h2. clear HwfI0 HxsI0 HpC HpI Hne. clear h1 pI pC.
  (* push(55), push(50), push(510) on objInt *)
  destruct (push_beside h2 vI _ (EInt 55) (arr vC) [None] HwfI HxsI)
    as (h3 & vI1 & -> & HwfI1 & HxsI1 & HbC1 & HneI1 & Hrest1); [|done..|].
  { apply contents_length in HxsI; [|apply HwfI].
    cbn [snd length] in HxsI. change (2 ^ 30) with 1073741824. lia. }
  rewrite bind_Returns. cbv beta iota.
  destruct (push_beside h3 vI1 _ (EInt 50) (arr vC) [None] HwfI1 HxsI1)
    as (h4 & vI2 & -> & HwfI2 & HxsI2 & HbC2 & HneI2 & Hrest2); [|done..|].
  { apply contents_length in HxsI1; [|apply HwfI1].
    cbn [snd length app] in HxsI1. change (2 ^ 30) with 1073741824. lia. }
  rewrite bind_Returns. cbv beta iota.
  destruct (push_beside h4 vI2 _ (EInt 510) (arr vC) [None] HwfI2 HxsI2)
    as (h5 & vI3 & -> & HwfI3 & HxsI3 & HbC3 & HneI3 & Hrest3); [|done..|].
  { apply contents_length in HxsI2; [|apply HwfI2].
    cbn [snd length app] in HxsI2. change (2 ^ 30) with 1073741824. lia. }
  rewrite bind_Returns. cbv beta iota.
  cbn [app] in HxsI3.
  assert (Hframe3 : delete (arr vC) (delete (arr vI3) h5) = h)
    by (by rewrite Hrest3, Hrest2, Hrest1).
  pose proof (contents_length _ _ (proj1 HwfI3) HxsI3) as HlenI.
  cbn [snd length] in HlenI.
  assert (HcurI : current vI3 = 3) by (destruct HwfI3 as [_ ?]; cbn [snd] in *; lia).
  (* get(2), getSize(), print() on objInt *)
  rewrite (get_live int_of_int (h5, vI3) _ 2 (EInt 510) HxsI3)
    by (done || (cbn [snd]; lia)).
  rewrite bind_Returns. cbv beta iota.
  rewrite (print_spec (h5, vI3) _ (proj1 HwfI3) HxsI3), bind_Returns.
  unfold getSize. cbn [snd]. rewrite HcurI.
  (* push('A'), push('B'), push('C') on objChar *)
  assert (HwfC5 : wf (h5, vC)).
  { apply (wf_same_block h2); [by rewrite HbC3 | done]. }
  assert (HxsC5 : contents (h5, vC) = Some []).
  { rewrite <- HxsC. apply contents_same_block. by rewrite HbC3. }
  destruct HwfI3 as [((bI & HbI & HlenbI) & HokI) HposI]. cbn [fst snd] in HbI.
  clear HwfI HxsI HwfI1 HxsI1 HwfI2 HxsI2 HbC HbC1 HbC2 HbC3 Hrest1 Hrest2 Hrest3.
  destruct (push_beside h5 vC _ (EChar "A") (arr vI3) bI HwfC5 HxsC5)
    as (h6 & vC1 & -> & HwfC1 & HxsC1 & HbI1 & HneC1 & HrestC1); [|done..|].
  { apply contents_length in HxsC5; [|apply HwfC5].
    cbn [snd length] in HxsC5. change (2 ^ 30) with 1073741824. lia. }
  rewrite bind_Returns. cbv beta iota.
  destruct (push_beside h6 vC1 _ (EChar "B") (arr vI3) bI HwfC1 HxsC1)
    as (h7 & vC2 & -> & HwfC2 & HxsC2 & HbI2 & HneC2 & HrestC2); [|done..|].
  { apply contents_length in HxsC1; [|apply HwfC1].
    cbn [snd length app] in HxsC1. change (2 ^ 30) with 1073741824. lia. }
  rewrite bind_Returns. cbv beta iota.
  destruct (push_beside h7 vC2 _ (EChar "C") (arr vI3) bI HwfC2 HxsC2)
    as (h8 & vC3 & -> & HwfC3 & HxsC3 & HbI3 & HneC3 & HrestC3); [|done..|].
  { apply contents_length in HxsC2; [|apply HwfC2].
    cbn [snd length app] in HxsC2. change (2 ^ 30) with 1073741824. lia. }
  rewrite bind_Returns. cbv beta iota.
  cbn [app] in HxsC3.
  rewrite (print_spec (h8, vC3) _ (proj1 HwfC3) HxsC3), bind_Returns.
  (* the destructors *)
  destruct HwfC3 as [((bC & HbC & _) & _) _]. cbn [fst snd] in HbC.
  unfold vectorClass_delete, delete_array. cbn [fst snd].
  rewrite HbC, bind_Returns, lookup_delete_ne, HbI3, bind_Returns by done.
  do 2 f_equal.
  rewrite HrestC3, HrestC2, HrestC1, (delete_delete h5 (arr vI3) (arr vC)).
  exact Hframe3.
Qed.

(** ** Instances of the further properties on vectorClass<int> *)

(** X1, instance: [print] on the container holding 55, 50, 510. *)
Lemma print_writes_live_elements_witness :
  print c_three = Returns (printed [55; 50; 510]).
Proof.
  destruct (print_writes_live_elements id c_three) as (xs & Hxs & _ & Hprint).
  - exists ∅, [Push 55; Push 50; Push 510]. reflexivity.
  - injection Hxs as <-. exact Hprint.
Defined.

(** X2, instance: 55, 50, 510 appended to [objInt]. *)
Lemma appended_elements_read_back_witness :
  ∃ c, objInt_after [Push 55; Push 50; Push 510] = Returns c ∧
       print c = Returns (printed [55; 50; 510]) ∧
       get id 1 c = Returns (c, got 1 50, -1).
Proof.
  destruct (appended_elements_read_back id ∅ [55; 50; 510])
    as (c & Hrun & _ & Hprint & Hget).
  - vm_compute. congruence.
  - exists c. split_and!; [exact Hrun | exact Hprint |].
    apply (Hget 1%nat 50). reflexivity.
Defined.

(** X3, instance: two appends and two [pop] calls on the full container
    holding 55, 50. *)
Lemma pushes_then_pops_restore_witness :
  ∃ c', run id [Push 510; Push 7; Pop 0; Pop 0] c_two = Returns c' ∧
        getSize c' = 2 ∧ contents c' = Some [55; 50] ∧
        getCapacity c_two < getCapacity c'.
Proof.
  destruct (pushes_then_pops_restore id c_two [55; 50] [510; 7] [0; 0])
    as (c' & Hrun & Hsize & Hxs & _ & Hgrown).
  - unfold wf, buffer_ok. split_and!; try (vm_compute; congruence).
    + eexists. split; reflexivity.
    + exists [55; 50]. reflexivity.
  - reflexivity.
  - vm_compute. congruence.
  - reflexivity.
  - exists c'. split_and!; [exact Hrun | exact Hsize | exact Hxs |].
    apply Hgrown. vm_compute. reflexivity.
Defined.

(** X4, instance: replacing the last element of 55, 50, 510 by 9. *)
Lemma pop_push_replaces_last_witness :
  ∃ c', run id [Pop 0; Push 9] c_three = Returns c' ∧
        contents c' = Some [55; 50; 9] ∧
        getCapacity c' = 4 ∧ arr c'.2 = arr c_three.2.
Proof.
  destruct (pop_push_replaces_last id c_three [55; 50] 510 0 9)
    as (c' & Hrun & Hxs & _ & Hcap & Harr & _).
  - unfold wf, buffer_ok. split_and!; try (vm_compute; congruence).
    + eexists. split; reflexivity.
    + exists [55; 50; 510]. reflexivity.
  - reflexivity.
  - exists c'. split_and!; [exact Hrun | exact Hxs | exact Hcap | exact Harr].
Defined.

(** X5, instance: a run with appends and a [pop] from the container
    holding 55, 50, 510. *)
Lemma capacity_never_shrinks_witness :
  ∃ c', run id [Push 1; Pop 0; Push 2; Push 3; Pop 0; Pop 0] c_three = Returns c' ∧
        getCapacity c_three ≤ getCapacity c'.
Proof.
  eexists. split; [reflexivity|].
  eapply (capacity_never_shrinks id [Push 1; Pop 0; Push 2; Push 3; Pop 0; Pop 0]).
  - exists ∅, [Push 55; Push 50; Push 510]. reflexivity.
  - reflexivity.
Defined.

(** X6, instance: the calls of [main] on [objInt], then the destructor. *)
Lemma buffer_is_the_only_block_witness :
  ∃ c, objInt_after [Push 55; Push 50; Push 510; Get 2; GetSize; Print]
       = Returns c ∧
       vectorClass_delete c = Returns ∅.
Proof.
  eexists. split; [reflexivity|].
  eapply (buffer_is_the_only_block id ∅
            [Push 55; Push 50; Push 510; Get 2; GetSize; Print]).
  - reflexivity.
  - reflexivity.
Defined.

(** X7, instance: three appends, one through [push(T, int)], and a
    [pop]. *)
Lemma size_counts_appends_and_pops_witness :
  ∃ c, objInt_after [Push 55; PushIndex 50 0; Get 0; Pop 0; Push 510] = Returns c ∧
       getSize c = 2.
Proof.
  eexists. split; [reflexivity|].
  eapply (size_counts_appends_and_pops id ∅
            [Push 55; PushIndex 50 0; Get 0; Pop 0; Push 510]).
  - reflexivity.
  - reflexivity.
Defined.

(** X9, instance: five appends copy 1 + 2 + 4 = 7 elements. *)
Lemma appends_copy_linearly_witness :
  (c0 ← objInt; copy_steps_of_pushes [1; 2; 3; 4; 5] c0) = Returns 7.
Proof.
  destruct (appends_copy_linearly (T:=Z) ∅ [1; 2; 3; 4; 5]) as (_ & Hcopies & _).
  - vm_compute. split; congruence.
  - exact Hcopies.
Defined.
